(** * AFD_Visualizer: the deterministic finite automaton engine

    A shallow embedding of the three copies of the [AFD] class of the
    repository ([afd_core.py], [afd_visualizer_enhanced.py] and
    [afd_visualizer_enhancedd.py]) together with the properties of their
    construction, step, acceptance and path operations, and of the code
    that calls them: the button handler of [afd_interface.py], and the
    graph drawn by the visualizers.

    Python sets of symbols and states are [gset string]; the transition
    dictionary [Dict[str, Dict[str, str]]] is a [gmap] of [gmap]s.  The
    object is a record; the only attribute a method ever assigns is
    [etat_actuel], so every method is a function returning its result
    together with the updated object. *)

From stdpp Require Import gmap strings list fin_maps sorting.

Open Scope string_scope.
Open Scope list_scope.
Open Scope nat_scope.

(** ** Data model *)

(** The attributes of an [AFD] object, with the names of the source. *)
Record AFD : Type := MkAFD {
  alphabet : gset string;
  etats : gset string;
  etat_initial : string;
  etats_finaux : gset string;
  transitions : gmap string (gmap string string);
  etat_actuel : string
}.

(** The five constructor arguments: what a caller passes to [AFD(...)]. *)
Record Definition_AFD : Type := MkDef {
  d_alphabet : gset string;
  d_etats : gset string;
  d_etat_initial : string;
  d_etats_finaux : gset string;
  d_transitions : gmap string (gmap string string)
}.

(** [self.etat_actuel = e] *)
Definition set_etat_actuel (afd : AFD) (e : string) : AFD :=
  {| alphabet := alphabet afd;
     etats := etats afd;
     etat_initial := etat_initial afd;
     etats_finaux := etats_finaux afd;
     transitions := transitions afd;
     etat_actuel := e |}.

(** The object holding exactly the given fields, with the current state at
    the initial state: what a constructor returns when it returns. *)
Definition objet (d : Definition_AFD) : AFD :=
  {| alphabet := d_alphabet d;
     etats := d_etats d;
     etat_initial := d_etat_initial d;
     etats_finaux := d_etats_finaux d;
     transitions := d_transitions d;
     etat_actuel := d_etat_initial d |}.

(** The immutable part of an object: everything except [etat_actuel]. *)
Definition definition_de (afd : AFD) : Definition_AFD :=
  {| d_alphabet := alphabet afd;
     d_etats := etats afd;
     d_etat_initial := etat_initial afd;
     d_etats_finaux := etats_finaux afd;
     d_transitions := transitions afd |}.

(** Python exceptions raised by the constructors. *)
Inductive Exception : Type :=
  | ValueError (message : string).

(** A [str] iterated by [for symbole in chaine] yields its characters as
    one-character strings. *)
Fixpoint symboles (chaine : string) : list string :=
  match chaine with
  | EmptyString => []
  | String c reste => String c EmptyString :: symboles reste
  end.

(** The entry of the transition table for a (state, symbol) pair, if any. *)
Definition entree (t : gmap string (gmap string string)) (e s : string)
  : option string :=
  match t !! e with
  | Some ligne => ligne !! s
  | None => None
  end.

(** The three invariants of the data model of the specification. *)
Definition initial_valide (d : Definition_AFD) : Prop :=
  d_etat_initial d ∈ d_etats d.

Definition finaux_valides (d : Definition_AFD) : Prop :=
  d_etats_finaux d ⊆ d_etats d.

Definition transitions_valides (d : Definition_AFD) : Prop :=
  map_Forall (λ e (ligne : gmap string string),
    map_Forall (λ s e', e ∈ d_etats d ∧ s ∈ d_alphabet d ∧ e' ∈ d_etats d) ligne)
    (d_transitions d).

Definition definition_valide (d : Definition_AFD) : Prop :=
  initial_valide d ∧ finaux_valides d ∧ transitions_valides d.

(** ** afd_core.py *)

Module Core.

(** [AFD.__init__]: stores the five arguments and sets [etat_actuel];
    nothing is checked and nothing is raised, so the result is always an
    object. *)
Definition init (d : Definition_AFD) : AFD :=
  {| alphabet := d_alphabet d;
     etats := d_etats d;
     etat_initial := d_etat_initial d;
     etats_finaux := d_etats_finaux d;
     transitions := d_transitions d;
     etat_actuel := d_etat_initial d |}.

(** [AFD.reinitialiser] *)
Definition reinitialiser (afd : AFD) : AFD :=
  set_etat_actuel afd (etat_initial afd).

(** [AFD.traiter_symbole] *)
Definition traiter_symbole (afd : AFD) (symbole : string) : bool * AFD :=
  if negb (bool_decide (symbole ∈ alphabet afd)) then (false, afd)
  else
    match transitions afd !! etat_actuel afd with
    | Some ligne =>
        match ligne !! symbole with
        | Some destination => (true, set_etat_actuel afd destination)
        | None => (false, afd)
        end
    | None => (false, afd)
    end.

(** The [for] loop of [accepter_chaine].  The first component tells
    whether the loop ran to exhaustion ([true]) or left through
    [return False]; the last one is what is left in the iterator. *)
Fixpoint boucle_accepter (afd : AFD) (chaine : list string)
  : bool * AFD * list string :=
  match chaine with
  | [] => (true, afd, [])
  | symbole :: reste =>
      let '(ok, afd') := traiter_symbole afd symbole in
      if negb ok then (false, afd', reste)
      else boucle_accepter afd' reste
  end.

(** [AFD.accepter_chaine] *)
Definition accepter_chaine (afd : AFD) (chaine : list string) : bool * AFD :=
  let afd := reinitialiser afd in
  let '(epuisee, afd, _) := boucle_accepter afd chaine in
  if epuisee then (bool_decide (etat_actuel afd ∈ etats_finaux afd), afd)
  else (false, afd).

(** The [for] loop of [obtenir_chemin], threading the local list
    [chemin]; the last component is what is left in the iterator. *)
Fixpoint boucle_chemin (afd : AFD) (chemin : list string) (chaine : list string)
  : list string * AFD * list string :=
  match chaine with
  | [] => (chemin, afd, [])
  | symbole :: reste =>
      let '(ok, afd') := traiter_symbole afd symbole in
      if ok then boucle_chemin afd' (chemin ++ [etat_actuel afd']) reste
      else (chemin, afd', reste)
  end.

(** [AFD.obtenir_chemin] *)
Definition obtenir_chemin (afd : AFD) (chaine : list string)
  : list string * AFD :=
  let afd := reinitialiser afd in
  let chemin := [etat_actuel afd] in
  let '(chemin, afd, _) := boucle_chemin afd chemin chaine in
  (chemin, afd).

(** [creer_afd_exemple] *)
Definition creer_afd_exemple : AFD :=
  let alphabet : gset string := {["a"; "b"]} in
  let etats : gset string := {["q0"; "q1"; "q2"]} in
  let etat_initial := "q0" in
  let etats_finaux : gset string := {["q2"]} in
  let transitions : gmap string (gmap string string) :=
    {[ "q0" := {[ "a" := "q1"; "b" := "q0" ]};
       "q1" := {[ "a" := "q1"; "b" := "q2" ]};
       "q2" := {[ "a" := "q1"; "b" := "q0" ]} ]} in
  init (MkDef alphabet etats etat_initial etats_finaux transitions).

End Core.

(** ** afd_visualizer_enhanced.py *)

(** The calls to [logger.debug] only write to the log and are left out. *)
Module Enhanced.

(** [AFD.reinitialiser] *)
Definition reinitialiser (afd : AFD) : AFD :=
  set_etat_actuel afd (etat_initial afd).

(** The loop [for e in self.etats_finaux] of [__post_init__], over the
    elements of the set in the order the iteration yields them. *)
Fixpoint verifier_finaux (finaux : list string) (etats : gset string)
  : option Exception :=
  match finaux with
  | [] => None
  | e :: reste =>
      if negb (bool_decide (e ∈ etats))
      then Some (ValueError "all etats_finaux must be in etats")
      else verifier_finaux reste etats
  end.

(** [AFD.__post_init__], run on the object whose five declared fields
    were just assigned; [etat_actuel] does not exist yet and is not read
    before [reinitialiser] assigns it. *)
Definition post_init (afd : AFD) : Exception + AFD :=
  if negb (bool_decide (etat_initial afd ∈ etats afd))
  then inl (ValueError "etat_initial must be an element of etats")
  else
    match verifier_finaux (elements (etats_finaux afd)) (etats afd) with
    | Some exc => inl exc
    | None => inr (reinitialiser afd)
    end.

(** The [__init__] generated by [@dataclass]: assigns the five fields
    and calls [__post_init__].  The record passed on already carries the
    value [etat_actuel] is about to receive; [post_init] does not depend
    on it. *)
Definition init (d : Definition_AFD) : Exception + AFD :=
  post_init (objet d).

(** [AFD.traiter_symbole] *)
Definition traiter_symbole (afd : AFD) (symbole : string) : bool * AFD :=
  if negb (bool_decide (symbole ∈ alphabet afd)) then (false, afd)
  else
    let trans : gmap string string :=
      default ∅ (transitions afd !! etat_actuel afd) in
    match trans !! symbole with
    | Some destination => (true, set_etat_actuel afd destination)
    | None => (false, afd)
    end.

(** The [for] loop of [accepter_chaine]. *)
Fixpoint boucle_accepter (afd : AFD) (chaine : list string)
  : bool * AFD * list string :=
  match chaine with
  | [] => (true, afd, [])
  | s :: reste =>
      let '(ok, afd') := traiter_symbole afd s in
      if negb ok then (false, afd', reste)
      else boucle_accepter afd' reste
  end.

(** [AFD.accepter_chaine] *)
Definition accepter_chaine (afd : AFD) (chaine : list string) : bool * AFD :=
  let afd := reinitialiser afd in
  let '(epuisee, afd, _) := boucle_accepter afd chaine in
  if epuisee then (bool_decide (etat_actuel afd ∈ etats_finaux afd), afd)
  else (false, afd).

(** The [for] loop of [obtenir_chemin]. *)
Fixpoint boucle_chemin (afd : AFD) (chemin : list string) (chaine : list string)
  : list string * AFD * list string :=
  match chaine with
  | [] => (chemin, afd, [])
  | s :: reste =>
      let '(ok, afd') := traiter_symbole afd s in
      if ok then boucle_chemin afd' (chemin ++ [etat_actuel afd']) reste
      else (chemin, afd', reste)
  end.

(** [AFD.obtenir_chemin] *)
Definition obtenir_chemin (afd : AFD) (chaine : list string)
  : list string * AFD :=
  let afd := reinitialiser afd in
  let chemin := [etat_actuel afd] in
  let '(chemin, afd, _) := boucle_chemin afd chemin chaine in
  (chemin, afd).

End Enhanced.

(** ** afd_visualizer_enhancedd.py

    The second visualizer carries its own copy of the class. *)
Module Enhancedd.

Definition reinitialiser (afd : AFD) : AFD :=
  set_etat_actuel afd (etat_initial afd).

Fixpoint verifier_finaux (finaux : list string) (etats : gset string)
  : option Exception :=
  match finaux with
  | [] => None
  | e :: reste =>
      if negb (bool_decide (e ∈ etats))
      then Some (ValueError "all etats_finaux must be in etats")
      else verifier_finaux reste etats
  end.

Definition post_init (afd : AFD) : Exception + AFD :=
  if negb (bool_decide (etat_initial afd ∈ etats afd))
  then inl (ValueError "etat_initial must be an element of etats")
  else
    match verifier_finaux (elements (etats_finaux afd)) (etats afd) with
    | Some exc => inl exc
    | None => inr (reinitialiser afd)
    end.

Definition init (d : Definition_AFD) : Exception + AFD :=
  post_init (objet d).

Definition traiter_symbole (afd : AFD) (symbole : string) : bool * AFD :=
  if negb (bool_decide (symbole ∈ alphabet afd)) then (false, afd)
  else
    let trans : gmap string string :=
      default ∅ (transitions afd !! etat_actuel afd) in
    match trans !! symbole with
    | Some destination => (true, set_etat_actuel afd destination)
    | None => (false, afd)
    end.

Fixpoint boucle_accepter (afd : AFD) (chaine : list string)
  : bool * AFD * list string :=
  match chaine with
  | [] => (true, afd, [])
  | s :: reste =>
      let '(ok, afd') := traiter_symbole afd s in
      if negb ok then (false, afd', reste)
      else boucle_accepter afd' reste
  end.

Definition accepter_chaine (afd : AFD) (chaine : list string) : bool * AFD :=
  let afd := reinitialiser afd in
  let '(epuisee, afd, _) := boucle_accepter afd chaine in
  if epuisee then (bool_decide (etat_actuel afd ∈ etats_finaux afd), afd)
  else (false, afd).

Fixpoint boucle_chemin (afd : AFD) (chemin : list string) (chaine : list string)
  : list string * AFD * list string :=
  match chaine with
  | [] => (chemin, afd, [])
  | s :: reste =>
      let '(ok, afd') := traiter_symbole afd s in
      if ok then boucle_chemin afd' (chemin ++ [etat_actuel afd']) reste
      else (chemin, afd', reste)
  end.

Definition obtenir_chemin (afd : AFD) (chaine : list string)
  : list string * AFD :=
  let afd := reinitialiser afd in
  let chemin := [etat_actuel afd] in
  let '(chemin, afd, _) := boucle_chemin afd chemin chaine in
  (chemin, afd).

End Enhancedd.

(** ** The engine of the specification

    The step rule as the specification words it, with its three outcomes,
    to compare with the boolean the code returns. *)
Module Spec.

Inductive Cause : Type := InvalidSymbol | NoTransition.

Inductive StepOutcome : Type :=
  | Advanced
  | Rejected (cause : Cause).

Record Run : Type := MkRun {
  current_state : string;
  path : list string
}.

Definition Step (automaton : Definition_AFD) (run : Run) (symbol : string)
  : StepOutcome * Run :=
  if bool_decide (symbol ∈ d_alphabet automaton) then
    match entree (d_transitions automaton) (current_state run) symbol with
    | None => (Rejected NoTransition, run)
    | Some destination =>
        (Advanced, {| current_state := destination;
                      path := path run ++ [destination] |})
    end
  else (Rejected InvalidSymbol, run).

(** What is left of an outcome once it is reported as a boolean. *)
Definition advanced (o : StepOutcome) : bool :=
  match o with
  | Advanced => true
  | Rejected _ => false
  end.

End Spec.

(** ** The step function underlying the three copies *)

(** One step from state [e]: the destination, or [None] when the symbol is
    outside the alphabet or the table has no entry. *)
Definition pas (afd : AFD) (e s : string) : option string :=
  if bool_decide (s ∈ alphabet afd) then entree (transitions afd) e s else None.

(** The states entered while reading [chaine] from [e], up to the first
    symbol that cannot be read. *)
Fixpoint suite (afd : AFD) (e : string) (chaine : list string) : list string :=
  match chaine with
  | [] => []
  | s :: reste =>
      match pas afd e s with
      | Some e' => e' :: suite afd e' reste
      | None => []
      end
  end.

(** The sequence of calls a client may make on the object. *)
Inductive Appel : Type :=
  | Reinitialiser
  | Traiter (symbole : string)
  | Accepter (chaine : list string)
  | Chemin (chaine : list string).

Definition executer (afd : AFD) (a : Appel) : AFD :=
  match a with
  | Reinitialiser => Core.reinitialiser afd
  | Traiter s => snd (Core.traiter_symbole afd s)
  | Accepter chaine => snd (Core.accepter_chaine afd chaine)
  | Chemin chaine => snd (Core.obtenir_chemin afd chaine)
  end.

(** The transition table has an entry for every state and symbol. *)
Definition complet (d : Definition_AFD) : Prop :=
  set_Forall (λ e,
    set_Forall (λ s, is_Some (entree (d_transitions d) e s)) (d_alphabet d))
    (d_etats d).

#[global] Instance initial_valide_dec d : Decision (initial_valide d).
Proof. unfold initial_valide. apply _. Defined.

#[global] Instance finaux_valides_dec d : Decision (finaux_valides d).
Proof. unfold finaux_valides. apply _. Defined.

#[global] Instance transitions_valides_dec d : Decision (transitions_valides d).
Proof. unfold transitions_valides. apply _. Defined.

#[global] Instance definition_valide_dec d : Decision (definition_valide d).
Proof. unfold definition_valide. apply _. Defined.

#[global] Instance complet_dec d : Decision (complet d).
Proof. unfold complet. apply _. Defined.

(** ** Particular automata *)

(** A valid automaton whose table is partial: [b] is in the alphabet but no
    state has a transition on it. *)
Definition definition_partielle : Definition_AFD :=
  {| d_alphabet := {["a"; "b"]};
     d_etats := {["q0"; "q1"]};
     d_etat_initial := "q0";
     d_etats_finaux := {["q1"]};
     d_transitions := {[ "q0" := {[ "a" := "q1" ]} ]} |}.

(** A definition whose only transition leads to an undeclared state. *)
Definition definition_transition_pendante : Definition_AFD :=
  {| d_alphabet := {["a"]};
     d_etats := {["q0"]};
     d_etat_initial := "q0";
     d_etats_finaux := {["q0"]};
     d_transitions := {[ "q0" := {[ "a" := "q9" ]} ]} |}.

(** A definition whose initial state is undeclared. *)
Definition definition_initial_pendant : Definition_AFD :=
  {| d_alphabet := {["a"]};
     d_etats := {["q0"]};
     d_etat_initial := "q7";
     d_etats_finaux := {["q0"]};
     d_transitions := {[ "q0" := {[ "a" := "q0" ]} ]} |}.

(** ** afd_interface.py *)

Module Interface.

(** Python's [KeyError], carrying the key that was not found. *)
Inductive KeyError : Type :=
  | MkKeyError (cle : string).

(** What the handler of the button shows, one constructor per call that
    displays a result. *)
Inductive Sortie : Type :=
  | Verdict (acceptee : bool)
  | Chemin_parcouru (chemin_str : string)
  | Etape (numero : nat) (etat_courant char etat_suivant : string)
  | Caracteres_invalides.

(** The loop [for i, char in enumerate(chaine)] of the detailed steps:
    the lines written, and the exception that ended the loop if a
    subscript failed. *)
Fixpoint boucle_etapes (afd : AFD) (etat_courant : string) (i : nat)
    (chaine : list string) : list Sortie * option KeyError :=
  match chaine with
  | [] => ([], None)
  | char :: reste =>
      match transitions afd !! etat_courant with
      | None => ([], Some (MkKeyError etat_courant))
      | Some ligne =>
          match ligne !! char with
          | None => ([], Some (MkKeyError char))
          | Some etat_suivant =>
              let '(ecrit, exc) := boucle_etapes afd etat_suivant (S i) reste in
              (Etape (i + 1) etat_courant char etat_suivant :: ecrit, exc)
          end
      end
  end.

(** The body of [if st.button("Vérifier la chaîne")] in [main]: what is
    shown, the exception that escapes if any, and the object afterwards. *)
Definition verifier_la_chaine (afd : AFD) (chaine : list string)
  : list Sortie * option KeyError * AFD :=
  if bool_decide (chaine ≠ []) then
    if forallb (λ char, bool_decide (char ∈ alphabet afd)) chaine then
      let '(resultat, afd) := Core.accepter_chaine afd chaine in
      let '(chemin, afd) := Core.obtenir_chemin afd chaine in
      let chemin_str := String.concat " → " chemin in
      let afd := Core.reinitialiser afd in
      let etat_courant := etat_initial afd in
      let '(ecrit, exc) := boucle_etapes afd etat_courant 0 chaine in
      (Verdict resultat :: Chemin_parcouru chemin_str :: ecrit, exc, afd)
    else ([Caracteres_invalides], None, afd)
  else ([], None, afd).

End Interface.

(** ** The utilities of the two visualizers

    [creer_afd_exemple] and [afd_to_graphviz] are the same text in
    [afd_visualizer_enhanced.py] and [afd_visualizer_enhancedd.py]. *)
Module Visualizer.

(** [creer_afd_exemple], through the dataclass constructor. *)
Definition creer_afd_exemple : Exception + AFD :=
  let alphabet : gset string := {["a"; "b"]} in
  let etats : gset string := {["q0"; "q1"; "q2"]} in
  let etat_initial := "q0" in
  let etats_finaux : gset string := {["q2"]} in
  let transitions : gmap string (gmap string string) :=
    {[ "q0" := {[ "a" := "q1"; "b" := "q0" ]};
       "q1" := {[ "a" := "q1"; "b" := "q2" ]};
       "q2" := {[ "a" := "q1"; "b" := "q0" ]} ]} in
  Enhanced.init (MkDef alphabet etats etat_initial etats_finaux transitions).

(** The calls made on the [graphviz.Digraph], in order, each with the
    keyword arguments it is given. *)
Inductive Instruction : Type :=
  | Attr (rankdir size : string)
  | Node (name : string) (label : option string) (shape : string)
         (style : option string)
  | Edge (tail_name head_name : string) (label arrowhead : option string).

(** [sorted] on a collection of [str]: ascending order of the strings. *)
Definition sorted (l : list string) : list string :=
  merge_sort (λ a b, String.leb a b) l.

(** ["filled" if highlight_path and etat in highlight_path else ""]:
    [None] and the empty list are both false. *)
Definition style_de (highlight_path : option (list string)) (etat : string)
  : string :=
  match highlight_path with
  | None => ""
  | Some [] => ""
  | Some chemin => if bool_decide (etat ∈ chemin) then "filled" else ""
  end.

(** The loop [for etat in sorted(afd.etats)]. *)
Definition noeuds (afd : AFD) (highlight_path : option (list string))
  : list Instruction :=
  (λ etat,
     if bool_decide (etat ∈ etats_finaux afd)
     then Node etat None "doublecircle" (Some (style_de highlight_path etat))
     else Node etat None "circle" (Some (style_de highlight_path etat)))
  <$> sorted (elements (etats afd)).

(** [edges.setdefault(cle, []).append(sym)] on the dictionary [edges],
    kept as the list of its items in insertion order. *)
Fixpoint setdefault_append (edges : list (string * string * list string))
    (cle : string * string) (sym : string)
  : list (string * string * list string) :=
  match edges with
  | [] => [(cle, [sym])]
  | (cle', syms) :: reste =>
      if bool_decide (cle' = cle) then (cle', syms ++ [sym]) :: reste
      else (cle', syms) :: setdefault_append reste cle sym
  end.

(** The two nested loops that fill [edges].  The items of the transition
    dictionaries are visited in the order [map_to_list] enumerates them. *)
Definition grouper (t : gmap string (gmap string string))
  : list (string * string * list string) :=
  foldl (λ edges '(src, trans),
           foldl (λ edges '(sym, dst), setdefault_append edges (src, dst) sym)
                 edges (map_to_list (trans : gmap string string)))
        [] (map_to_list t).

(** The loop [for (src, dst), syms in edges.items()]. *)
Definition aretes (edges : list (string * string * list string))
  : list Instruction :=
  (λ '(src, dst, syms),
     Edge src dst (Some (String.concat "," (sorted syms))) None) <$> edges.

(** [afd_to_graphviz] *)
Definition afd_to_graphviz (afd : AFD) (highlight_path : option (list string))
  : list Instruction :=
  [Attr "LR" "8,5";
   Node "__start__" (Some "") "none" None;
   Edge "__start__" (etat_initial afd) None (Some "normal")]
  ++ noeuds afd highlight_path
  ++ aretes (grouper (transitions afd)).

End Visualizer.

(** ** Declared ends of the transitions *)

(** Every destination in the transition table is a declared state;
    nothing is asked of the sources or of the symbols. *)
Definition destinations_declarees (d : Definition_AFD) : Prop :=
  map_Forall (λ (_ : string) (ligne : gmap string string),
    map_Forall (λ (_ : string) e', e' ∈ d_etats d) ligne)
    (d_transitions d).

(** Every transition of the table has a declared source and a declared
    destination; nothing is asked of the symbols. *)
Definition extremites_declarees (d : Definition_AFD) : Prop :=
  map_Forall (λ e (ligne : gmap string string),
    map_Forall (λ (_ : string) e', e ∈ d_etats d ∧ e' ∈ d_etats d) ligne)
    (d_transitions d).

#[global] Instance destinations_declarees_dec d :
  Decision (destinations_declarees d).
Proof. unfold destinations_declarees. apply _. Defined.

#[global] Instance extremites_declarees_dec d :
  Decision (extremites_declarees d).
Proof. unfold extremites_declarees. apply _. Defined.

(** An automaton whose table has an entry on [z], a symbol outside the
    alphabet: its states are all declared, but the table is not valid. *)
Definition definition_symbole_non_declare : Definition_AFD :=
  {| d_alphabet := {["a"]};
     d_etats := {["q0"]};
     d_etat_initial := "q0";
     d_etats_finaux := {["q0"]};
     d_transitions := {[ "q0" := {[ "z" := "q0"; "a" := "q0" ]} ]} |}.

(** ** The transitions as a list *)

(** The transitions in the order the two nested loops of [afd_to_graphviz]
    meet them: source, symbol, destination. *)
Definition triplets (t : gmap string (gmap string string))
  : list (string * string * string) :=
  map_to_list t ≫= λ '(src, trans),
    (λ '(sym, dst), (src, sym, dst)) <$> map_to_list (trans : gmap string string).

(** The dictionary [edges] groups exactly the transitions [vus]: its keys
    are distinct, and the list under (source, destination) holds, once
    each, the symbols of the transitions seen between the two states. *)
Definition conforme (edges : list (string * string * list string))
    (vus : list (string * string * string)) : Prop :=
  NoDup edges.*1 ∧
  ∀ src dst,
    match (list_to_map edges : gmap (string * string) (list string)) !! (src, dst) with
    | None => ∀ sym, (src, sym, dst) ∉ vus
    | Some syms =>
        syms ≠ [] ∧ NoDup syms ∧ ∀ sym, sym ∈ syms ↔ (src, sym, dst) ∈ vus
    end.

(** * Properties *)

(** ** The step function *)

Lemma pas_set_etat_actuel afd x e s : pas (set_etat_actuel afd x) e s = pas afd e s.
Proof. reflexivity. Qed.

Lemma suite_set_etat_actuel afd x e chaine :
  suite (set_etat_actuel afd x) e chaine = suite afd e chaine.
Proof.
  revert e. induction chaine as [|s reste IH]; intros e; simpl; [done|].
  rewrite pas_set_etat_actuel. destruct (pas afd e s); [|done].
  by rewrite IH.
Qed.

(** [traiter_symbole] moves to [pas] of the current state, or stays. *)
Lemma core_traiter_symbole_pas afd s :
  Core.traiter_symbole afd s =
    match pas afd (etat_actuel afd) s with
    | Some e' => (true, set_etat_actuel afd e')
    | None => (false, afd)
    end.
Proof.
  unfold Core.traiter_symbole, pas, entree.
  destruct (bool_decide (s ∈ alphabet afd)); simpl; [|done].
  destruct (transitions afd !! etat_actuel afd) as [ligne|]; [|done].
  by destruct (ligne !! s).
Qed.

Lemma enhanced_traiter_symbole_core afd s :
  Enhanced.traiter_symbole afd s = Core.traiter_symbole afd s.
Proof.
  unfold Enhanced.traiter_symbole, Core.traiter_symbole.
  destruct (bool_decide (s ∈ alphabet afd)); simpl; [|done].
  destruct (transitions afd !! etat_actuel afd) as [ligne|]; simpl; [done|].
  by rewrite lookup_empty.
Qed.

Lemma enhancedd_traiter_symbole_core afd s :
  Enhancedd.traiter_symbole afd s = Core.traiter_symbole afd s.
Proof.
  unfold Enhancedd.traiter_symbole, Core.traiter_symbole.
  destruct (bool_decide (s ∈ alphabet afd)); simpl; [|done].
  destruct (transitions afd !! etat_actuel afd) as [ligne|]; simpl; [done|].
  by rewrite lookup_empty.
Qed.

(** ** The two loops, in closed form *)

Lemma etat_actuel_foldl afd l :
  etat_actuel (foldl set_etat_actuel afd l) = default (etat_actuel afd) (last l).
Proof.
  revert afd. induction l as [|e l IH]; intros afd; simpl; [done|].
  rewrite IH, last_cons. simpl. by destruct (last l).
Qed.

Lemma definition_de_foldl afd l :
  definition_de (foldl set_etat_actuel afd l) = definition_de afd.
Proof. revert afd. induction l as [|e l IH]; intros afd; simpl; [done|]. by rewrite IH. Qed.

Lemma core_boucle_chemin_suite afd chemin chaine :
  Core.boucle_chemin afd chemin chaine =
    (chemin ++ suite afd (etat_actuel afd) chaine,
     foldl set_etat_actuel afd (suite afd (etat_actuel afd) chaine),
     drop (S (length (suite afd (etat_actuel afd) chaine))) chaine).
Proof.
  revert afd chemin. induction chaine as [|s reste IH]; intros afd chemin; simpl.
  - by rewrite app_nil_r.
  - rewrite core_traiter_symbole_pas.
    destruct (pas afd (etat_actuel afd) s) as [e'|]; simpl.
    + rewrite IH. simpl. rewrite suite_set_etat_actuel, <- app_assoc. done.
    + by rewrite app_nil_r, drop_0.
Qed.

Lemma core_boucle_accepter_suite afd chaine :
  Core.boucle_accepter afd chaine =
    (bool_decide (length (suite afd (etat_actuel afd) chaine) = length chaine),
     foldl set_etat_actuel afd (suite afd (etat_actuel afd) chaine),
     drop (S (length (suite afd (etat_actuel afd) chaine))) chaine).
Proof.
  revert afd. induction chaine as [|s reste IH]; intros afd; simpl; [done|].
  rewrite core_traiter_symbole_pas.
  destruct (pas afd (etat_actuel afd) s) as [e'|]; simpl.
  - rewrite IH. simpl. rewrite suite_set_etat_actuel.
    repeat f_equal. apply bool_decide_ext. lia.
  - by rewrite drop_0.
Qed.

Lemma length_suite afd e chaine : length (suite afd e chaine) ≤ length chaine.
Proof.
  revert e. induction chaine as [|s reste IH]; intros e; simpl; [lia|].
  destruct (pas afd e s) as [e'|]; simpl; [|lia].
  specialize (IH e'). lia.
Qed.

Lemma core_obtenir_chemin_suite afd chaine :
  Core.obtenir_chemin afd chaine =
    (etat_initial afd :: suite afd (etat_initial afd) chaine,
     foldl set_etat_actuel (Core.reinitialiser afd)
           (suite afd (etat_initial afd) chaine)).
Proof.
  unfold Core.obtenir_chemin. rewrite core_boucle_chemin_suite. simpl.
  unfold Core.reinitialiser. by rewrite suite_set_etat_actuel.
Qed.

Lemma core_accepter_chaine_suite afd chaine :
  Core.accepter_chaine afd chaine =
    (bool_decide (length (suite afd (etat_initial afd) chaine) = length chaine)
     && bool_decide (default (etat_initial afd)
                             (last (suite afd (etat_initial afd) chaine))
                     ∈ etats_finaux afd),
     foldl set_etat_actuel (Core.reinitialiser afd)
           (suite afd (etat_initial afd) chaine)).
Proof.
  unfold Core.accepter_chaine. rewrite core_boucle_accepter_suite. simpl.
  unfold Core.reinitialiser. rewrite suite_set_etat_actuel.
  set (l := suite afd (etat_initial afd) chaine).
  destruct (bool_decide (length l = length chaine)); simpl; [|done].
  rewrite etat_actuel_foldl. simpl.
  pose proof (definition_de_foldl (set_etat_actuel afd (etat_initial afd)) l) as Hd.
  apply (f_equal d_etats_finaux) in Hd. simpl in Hd. by rewrite Hd.
Qed.

Lemma pas_Some afd e s e' :
  pas afd e s = Some e' ↔ s ∈ alphabet afd ∧ entree (transitions afd) e s = Some e'.
Proof.
  unfold pas. destruct (bool_decide (s ∈ alphabet afd)) eqn:Hb.
  - apply bool_decide_eq_true in Hb. split; [by intros ?|by intros [_ ?]].
  - apply bool_decide_eq_false in Hb. split; [done|by intros [? _]].
Qed.

Lemma pas_None afd e s :
  pas afd e s = None ↔ s ∉ alphabet afd ∨ entree (transitions afd) e s = None.
Proof.
  unfold pas. destruct (bool_decide (s ∈ alphabet afd)) eqn:Hb.
  - apply bool_decide_eq_true in Hb. split; [by right|by intros [?|?]].
  - apply bool_decide_eq_false in Hb. split; [by left|done].
Qed.

(** Consecutive states of a path are joined by the step on the symbol read
    at that position. *)
Lemma suite_consecutifs afd e chaine i p q :
  (e :: suite afd e chaine) !! i = Some p →
  (e :: suite afd e chaine) !! S i = Some q →
  ∃ c, chaine !! i = Some c ∧ pas afd p c = Some q.
Proof.
  revert e i. induction chaine as [|s reste IH]; intros e i Hp Hq; simpl in *.
  - by destruct i.
  - destruct (pas afd e s) as [e'|] eqn:Hpas; [|by destruct i].
    destruct i as [|i]; simpl in *.
    + exists s. naive_solver.
    + eapply IH; eauto.
Qed.

(** ** Step *)

(** C3: a rejected step is atomic.  When the symbol is outside the alphabet
    or the table has no entry for the current state and the symbol,
    [traiter_symbole] returns [False] and the object is exactly what it was;
    the iteration of [obtenir_chemin] that makes this call leaves the
    accumulated path [chemin] as it was. *)
Theorem traiter_symbole_rejet_atomique
    (afd : AFD) (chemin : list string) (symbole : string) (reste : list string) :
  symbole ∉ alphabet afd ∨
    entree (transitions afd) (etat_actuel afd) symbole = None →
  Core.traiter_symbole afd symbole = (false, afd) ∧
  etat_actuel (snd (Core.traiter_symbole afd symbole)) = etat_actuel afd ∧
  Core.boucle_chemin afd chemin (symbole :: reste) = (chemin, afd, reste).
Proof.
  intros Hrejet. apply pas_None in Hrejet.
  assert (Core.traiter_symbole afd symbole = (false, afd)) as Ht
    by (by rewrite core_traiter_symbole_pas, Hrejet).
  split; [done|]. split; [by rewrite Ht|].
  simpl. by rewrite Ht.
Qed.

Lemma traiter_symbole_rejet_atomique_witness :
  Core.traiter_symbole Core.creer_afd_exemple "c" = (false, Core.creer_afd_exemple) ∧
  etat_actuel (snd (Core.traiter_symbole Core.creer_afd_exemple "c")) = "q0" ∧
  Core.boucle_chemin Core.creer_afd_exemple ["q0"] ["c"; "a"]
    = (["q0"], Core.creer_afd_exemple, ["a"]).
Proof.
  apply (traiter_symbole_rejet_atomique Core.creer_afd_exemple ["q0"] "c" ["a"]).
  left. apply (bool_decide_unpack _). vm_compute. exact I.
Defined.

(** ** Trace *)

(** C4: the path returned by [obtenir_chemin] is never empty, starts with
    the initial state, and any two consecutive states of it are joined by
    an entry of the transition table on a symbol of the input (the symbol
    read at the position of the first of the two states). *)
Theorem obtenir_chemin_transitions (afd : AFD) (chaine : list string) :
  fst (Core.obtenir_chemin afd chaine) ≠ [] ∧
  head (fst (Core.obtenir_chemin afd chaine)) = Some (etat_initial afd) ∧
  ∀ (i : nat) (p q : string),
    fst (Core.obtenir_chemin afd chaine) !! i = Some p →
    fst (Core.obtenir_chemin afd chaine) !! S i = Some q →
    ∃ c, c ∈ chaine ∧ chaine !! i = Some c ∧
         entree (transitions afd) p c = Some q.
Proof.
  rewrite core_obtenir_chemin_suite. simpl fst.
  split; [done|]. split; [done|]. intros i p q Hp Hq.
  destruct (suite_consecutifs _ _ _ _ _ _ Hp Hq) as (c & Hc & Hpas).
  apply pas_Some in Hpas as [_ Hentree].
  exists c. split; [|done]. by eapply list_elem_of_lookup_2.
Qed.

Lemma obtenir_chemin_transitions_witness :
  ∃ c, c ∈ symboles "ab" ∧ symboles "ab" !! 1 = Some c ∧
       entree (transitions Core.creer_afd_exemple) "q1" c = Some "q2".
Proof.
  apply (proj2 (proj2 (obtenir_chemin_transitions
                         Core.creer_afd_exemple (symboles "ab"))) 1 "q1" "q2").
  - vm_compute. reflexivity.
  - vm_compute. reflexivity.
Defined.

(** ** Accept *)

(** C6: on the empty sequence [accepter_chaine] performs no step, the loop
    ends at once with the object as [reinitialiser] left it, and the result
    is [True] exactly when the initial state is an accepting state. *)
Theorem accepter_chaine_vide (afd : AFD) :
  Core.boucle_accepter (Core.reinitialiser afd) []
    = (true, Core.reinitialiser afd, []) ∧
  Core.accepter_chaine afd []
    = (bool_decide (etat_initial afd ∈ etats_finaux afd), Core.reinitialiser afd) ∧
  (fst (Core.accepter_chaine afd []) = true ↔ etat_initial afd ∈ etats_finaux afd).
Proof.
  split; [done|]. split; [done|].
  simpl. apply bool_decide_eq_true.
Qed.

(** C10: the path has between 1 and [len(chaine) + 1] states, and the
    input is accepted exactly when the path has [len(chaine) + 1] states
    and its last state is an accepting state. *)
Theorem accepter_chaine_longueur_chemin (afd : AFD) (chaine : list string) :
  1 ≤ length (fst (Core.obtenir_chemin afd chaine)) ≤ length chaine + 1 ∧
  (fst (Core.accepter_chaine afd chaine) = true ↔
     length (fst (Core.obtenir_chemin afd chaine)) = length chaine + 1 ∧
     ∃ e, last (fst (Core.obtenir_chemin afd chaine)) = Some e ∧
          e ∈ etats_finaux afd).
Proof.
  rewrite core_obtenir_chemin_suite, core_accepter_chaine_suite. simpl fst.
  pose proof (length_suite afd (etat_initial afd) chaine) as Hlen.
  set (l := suite afd (etat_initial afd) chaine) in *.
  assert (last (etat_initial afd :: l) = Some (default (etat_initial afd) (last l)))
    as Hlast by (rewrite last_cons; by destruct (last l)).
  split; [simpl; lia|].
  rewrite andb_true_iff, !bool_decide_eq_true, Hlast. simpl.
  split.
  - intros [Hl Hf]. split; [lia|]. eauto.
  - intros [Hl (e & [= <-] & Hf)]. split; [lia|done].
Qed.

(** ** The object between calls *)

Lemma core_reinitialiser_init afd :
  Core.reinitialiser afd = Core.init (definition_de afd).
Proof. reflexivity. Qed.

Lemma core_traiter_symbole_definition afd s :
  definition_de (snd (Core.traiter_symbole afd s)) = definition_de afd.
Proof.
  rewrite core_traiter_symbole_pas. by destruct (pas afd (etat_actuel afd) s).
Qed.

Lemma core_accepter_chaine_definition afd chaine :
  definition_de (snd (Core.accepter_chaine afd chaine)) = definition_de afd.
Proof. rewrite core_accepter_chaine_suite. simpl. by rewrite definition_de_foldl. Qed.

Lemma core_obtenir_chemin_definition afd chaine :
  definition_de (snd (Core.obtenir_chemin afd chaine)) = definition_de afd.
Proof. rewrite core_obtenir_chemin_suite. simpl. by rewrite definition_de_foldl. Qed.

(** No method assigns anything but [etat_actuel]. *)
Lemma executer_definition afd a :
  definition_de (executer afd a) = definition_de afd.
Proof.
  destruct a; simpl;
    auto using core_traiter_symbole_definition,
               core_accepter_chaine_definition, core_obtenir_chemin_definition.
Qed.

Lemma foldl_executer_definition afd appels :
  definition_de (foldl executer afd appels) = definition_de afd.
Proof.
  revert afd. induction appels as [|a appels IH]; intros afd; simpl; [done|].
  by rewrite IH, executer_definition.
Qed.

(** [accepter_chaine] and [obtenir_chemin] read [etat_actuel] only after
    [reinitialiser] has overwritten it. *)
Lemma core_accepter_chaine_meme_definition afd1 afd2 chaine :
  definition_de afd1 = definition_de afd2 →
  Core.accepter_chaine afd1 chaine = Core.accepter_chaine afd2 chaine.
Proof.
  intros Hd. unfold Core.accepter_chaine.
  by rewrite !core_reinitialiser_init, Hd.
Qed.

Lemma core_obtenir_chemin_meme_definition afd1 afd2 chaine :
  definition_de afd1 = definition_de afd2 →
  Core.obtenir_chemin afd1 chaine = Core.obtenir_chemin afd2 chaine.
Proof.
  intros Hd. unfold Core.obtenir_chemin.
  by rewrite !core_reinitialiser_init, Hd.
Qed.

(** C7: [accepter_chaine] and [obtenir_chemin] give the same result
    whatever calls were made on the object before, in particular when the
    same call is made twice in a row: both the returned value and the
    object left behind are those of a call on the untouched object. *)
Theorem appels_sans_memoire
    (afd : AFD) (appels : list Appel) (chaine : list string) :
  Core.accepter_chaine (foldl executer afd appels) chaine
    = Core.accepter_chaine afd chaine ∧
  Core.obtenir_chemin (foldl executer afd appels) chaine
    = Core.obtenir_chemin afd chaine ∧
  fst (Core.accepter_chaine (snd (Core.accepter_chaine afd chaine)) chaine)
    = fst (Core.accepter_chaine afd chaine) ∧
  fst (Core.obtenir_chemin (snd (Core.obtenir_chemin afd chaine)) chaine)
    = fst (Core.obtenir_chemin afd chaine).
Proof.
  split; [|split; [|split]].
  - apply core_accepter_chaine_meme_definition, foldl_executer_definition.
  - apply core_obtenir_chemin_meme_definition, foldl_executer_definition.
  - f_equal. apply core_accepter_chaine_meme_definition,
      core_accepter_chaine_definition.
  - f_equal. apply core_obtenir_chemin_meme_definition,
      core_obtenir_chemin_definition.
Qed.

(** ** The example automaton *)

(** C8: the six scenarios on the automaton of [creer_afd_exemple]. *)
Theorem exemple_scenarios :
  let afd := Core.creer_afd_exemple in
  definition_de afd =
    {| d_alphabet := {["a"; "b"]};
       d_etats := {["q0"; "q1"; "q2"]};
       d_etat_initial := "q0";
       d_etats_finaux := {["q2"]};
       d_transitions := {[ "q0" := {[ "a" := "q1"; "b" := "q0" ]};
                           "q1" := {[ "a" := "q1"; "b" := "q2" ]};
                           "q2" := {[ "a" := "q1"; "b" := "q0" ]} ]} |} ∧
  (fst (Core.accepter_chaine afd (symboles "ab")) = true ∧
   fst (Core.obtenir_chemin afd (symboles "ab")) = ["q0"; "q1"; "q2"]) ∧
  (fst (Core.accepter_chaine afd (symboles "aab")) = true ∧
   fst (Core.obtenir_chemin afd (symboles "aab")) = ["q0"; "q1"; "q1"; "q2"]) ∧
  (fst (Core.accepter_chaine afd (symboles "b")) = false ∧
   fst (Core.obtenir_chemin afd (symboles "b")) = ["q0"; "q0"]) ∧
  (fst (Core.accepter_chaine afd (symboles "aa")) = false ∧
   fst (Core.obtenir_chemin afd (symboles "aa")) = ["q0"; "q1"; "q1"]) ∧
  (fst (Core.accepter_chaine afd (symboles "abb")) = false ∧
   fst (Core.obtenir_chemin afd (symboles "abb")) = ["q0"; "q1"; "q2"; "q0"]) ∧
  (fst (Core.accepter_chaine afd (symboles "ac")) = false ∧
   fst (Core.obtenir_chemin afd (symboles "ac")) = ["q0"; "q1"] ∧
   fst (Core.obtenir_chemin afd (symboles "ac"))
     = fst (Core.obtenir_chemin afd (symboles "a")) ∧
   etat_actuel (snd (Core.obtenir_chemin afd (symboles "ac"))) = "q1").
Proof. vm_compute. repeat split; reflexivity. Qed.

(** ** Construction *)

Lemma transitions_valides_entree d :
  transitions_valides d ↔
  ∀ e s e', entree (d_transitions d) e s = Some e' →
            e ∈ d_etats d ∧ s ∈ d_alphabet d ∧ e' ∈ d_etats d.
Proof.
  unfold transitions_valides, entree. split.
  - intros Hv e s e' He.
    destruct (d_transitions d !! e) as [ligne|] eqn:Hl; [|done].
    exact (Hv e ligne Hl s e' He).
  - intros Hv e ligne Hl s e' He. apply Hv. by rewrite Hl.
Qed.

Lemma enhanced_verifier_finaux_Forall finaux etats :
  Enhanced.verifier_finaux finaux etats =
    if decide (Forall (λ e, e ∈ etats) finaux) then None
    else Some (ValueError "all etats_finaux must be in etats").
Proof.
  induction finaux as [|e reste IH]; cbn [Enhanced.verifier_finaux].
  - by rewrite decide_True.
  - destruct (bool_decide (e ∈ etats)) eqn:He; cbn [negb].
    + apply bool_decide_eq_true in He. rewrite IH.
      destruct (decide (Forall (λ e, e ∈ etats) reste)) as [Hr|Hr].
      * by rewrite decide_True by by constructor.
      * rewrite decide_False; [done|]. by intros [_ ?]%Forall_cons.
    + apply bool_decide_eq_false in He.
      rewrite decide_False; [done|]. by intros [? _]%Forall_cons.
Qed.

Lemma enhancedd_verifier_finaux_enhanced finaux etats :
  Enhancedd.verifier_finaux finaux etats = Enhanced.verifier_finaux finaux etats.
Proof. induction finaux as [|e reste IH]; simpl; [done|]. by rewrite IH. Qed.

Lemma finaux_valides_elements d :
  finaux_valides d ↔ Forall (λ e, e ∈ d_etats d) (elements (d_etats_finaux d)).
Proof.
  unfold finaux_valides. rewrite Forall_forall, elem_of_subseteq.
  by setoid_rewrite elem_of_elements.
Qed.

(** [__post_init__] never reads [etat_actuel] before assigning it. *)
Lemma enhanced_post_init_etat_actuel afd e :
  Enhanced.post_init (set_etat_actuel afd e) = Enhanced.post_init afd.
Proof. reflexivity. Qed.

Lemma enhancedd_init_enhanced d : Enhancedd.init d = Enhanced.init d.
Proof.
  unfold Enhancedd.init, Enhanced.init, Enhancedd.post_init, Enhanced.post_init.
  by rewrite enhancedd_verifier_finaux_enhanced.
Qed.

(** C1, as the code has it: the constructor of [afd_core.py] checks nothing
    and always returns the object with the given fields; the constructor of
    the two dataclasses raises [ValueError] exactly when the initial state
    or some accepting state is not in the state set, whatever the
    transition table holds, and otherwise returns the object with the given
    fields and the current state set to the initial state. *)
Theorem construction_afd (d : Definition_AFD) :
  Core.init d = objet d ∧
  Enhancedd.init d = Enhanced.init d ∧
  Enhanced.init d =
    if decide (initial_valide d) then
      if decide (finaux_valides d) then inr (objet d)
      else inl (ValueError "all etats_finaux must be in etats")
    else inl (ValueError "etat_initial must be an element of etats").
Proof.
  split; [done|]. split; [apply enhancedd_init_enhanced|].
  unfold Enhanced.init, Enhanced.post_init.
  rewrite enhanced_verifier_finaux_Forall.
  change (etat_initial (objet d) ∈ etats (objet d)) with (initial_valide d).
  change (etats_finaux (objet d)) with (d_etats_finaux d).
  change (etats (objet d)) with (d_etats d).
  destruct (decide (initial_valide d)) as [Hi|Hi].
  - rewrite bool_decide_eq_true_2 by done. cbn [negb].
    destruct (decide (finaux_valides d)) as [Hf|Hf].
    + rewrite decide_True by by apply finaux_valides_elements. done.
    + rewrite decide_False; [done|]. by rewrite <- finaux_valides_elements.
  - by rewrite bool_decide_eq_false_2.
Qed.

(** C1 fails as stated: a transition to an undeclared state is accepted
    by the dataclass constructor, and an undeclared initial state by the
    constructor of [afd_core.py]. *)
Lemma construction_afd_counterexample :
  ¬ transitions_valides definition_transition_pendante ∧
  ¬ definition_valide definition_transition_pendante ∧
  Enhanced.init definition_transition_pendante
    = inr (objet definition_transition_pendante) ∧
  ¬ initial_valide definition_initial_pendant ∧
  Core.init definition_initial_pendant = objet definition_initial_pendant.
Proof.
  assert (¬ transitions_valides definition_transition_pendante) as Ht.
  { apply (bool_decide_eq_false_1 _). vm_compute. reflexivity. }
  split; [done|]. split; [by intros (_ & _ & ?)|].
  split; [vm_compute; reflexivity|].
  split; [|reflexivity].
  apply (bool_decide_eq_false_1 _). vm_compute. reflexivity.
Qed.

(** ** The outcome of a step *)

(** C2, as the code has it: [traiter_symbole] returns a boolean, [True]
    for the outcome [Advanced] and the same [False] for both rejections,
    with the object untouched; on a one-symbol input [accepter_chaine]
    returns [False] and [obtenir_chemin] the one-state path for either
    rejection, so the cause is not part of any return value.  The
    dataclass copies of [traiter_symbole] return the same. *)
Theorem traiter_symbole_booleen (afd : AFD) (chemin : list string) (s : string) :
  Enhanced.traiter_symbole afd s = Core.traiter_symbole afd s ∧
  Enhancedd.traiter_symbole afd s = Core.traiter_symbole afd s ∧
  Core.traiter_symbole afd s =
    match Spec.Step (definition_de afd) (Spec.MkRun (etat_actuel afd) chemin) s with
    | (Spec.Advanced, run) => (true, set_etat_actuel afd (Spec.current_state run))
    | (Spec.Rejected _, _) => (false, afd)
    end ∧
  fst (Core.accepter_chaine afd [s]) =
    match Spec.Step (definition_de afd)
                    (Spec.MkRun (etat_initial afd) [etat_initial afd]) s with
    | (Spec.Advanced, run) =>
        bool_decide (Spec.current_state run ∈ etats_finaux afd)
    | (Spec.Rejected _, _) => false
    end ∧
  fst (Core.obtenir_chemin afd [s]) =
    Spec.path (snd (Spec.Step (definition_de afd)
                              (Spec.MkRun (etat_initial afd) [etat_initial afd]) s)).
Proof.
  split; [apply enhanced_traiter_symbole_core|].
  split; [apply enhancedd_traiter_symbole_core|].
  rewrite core_traiter_symbole_pas, core_accepter_chaine_suite,
    core_obtenir_chemin_suite.
  simpl. unfold Spec.Step, pas. simpl.
  destruct (bool_decide (s ∈ alphabet afd)); simpl; [|done].
  split.
  - by destruct (entree (transitions afd) (etat_actuel afd) s).
  - by destruct (entree (transitions afd) (etat_initial afd) s).
Qed.

(** C2 fails as stated: on the partial automaton a symbol outside the
    alphabet and an alphabet symbol without transition give the same return
    value in [traiter_symbole], [accepter_chaine] and [obtenir_chemin],
    where the specification has two distinct outcomes. *)
Lemma traiter_symbole_booleen_counterexample :
  let afd := Core.init definition_partielle in
  ("c" ∉ alphabet afd) ∧
  ("b" ∈ alphabet afd ∧ entree (transitions afd) (etat_actuel afd) "b" = None) ∧
  Core.traiter_symbole afd "c" = (false, afd) ∧
  Core.traiter_symbole afd "b" = (false, afd) ∧
  Core.accepter_chaine afd ["c"] = Core.accepter_chaine afd ["b"] ∧
  Core.obtenir_chemin afd ["c"] = Core.obtenir_chemin afd ["b"] ∧
  fst (Spec.Step definition_partielle (Spec.MkRun "q0" ["q0"]) "c")
    = Spec.Rejected Spec.InvalidSymbol ∧
  fst (Spec.Step definition_partielle (Spec.MkRun "q0" ["q0"]) "b")
    = Spec.Rejected Spec.NoTransition.
Proof.
  cbv zeta. split; [|split; [split|]].
  - apply (bool_decide_eq_false_1 _). vm_compute. reflexivity.
  - apply (bool_decide_eq_true_1 _). vm_compute. reflexivity.
  - vm_compute. reflexivity.
  - vm_compute. repeat split; reflexivity.
Qed.

(** ** The three copies *)



Lemma enhanced_boucle_chemin_core afd chemin chaine :
  Enhanced.boucle_chemin afd chemin chaine = Core.boucle_chemin afd chemin chaine.
Proof.
  revert afd chemin.
  induction chaine as [|s reste IH]; intros afd chemin; simpl; [done|].
  rewrite enhanced_traiter_symbole_core.
  destruct (Core.traiter_symbole afd s) as [[] afd']; simpl; [apply IH|done].
Qed.




(** ** Symbols outside the alphabet *)

Lemma suite_symbole_invalide afd e pre bad rest :
  bad ∉ alphabet afd →
  suite afd e (pre ++ bad :: rest) = suite afd e pre.
Proof.
  intros Hbad. revert e. induction pre as [|s pre IH]; intros e; simpl.
  - by rewrite (proj2 (pas_None afd e bad)) by by left.
  - destruct (pas afd e s) as [e'|]; [|done]. by rewrite IH.
Qed.

(** On a valid automaton with a total table every symbol of the alphabet
    can be read from every declared state. *)
Lemma suite_complet afd e pre :
  definition_valide (definition_de afd) → complet (definition_de afd) →
  e ∈ etats afd → Forall (λ s, s ∈ alphabet afd) pre →
  length (suite afd e pre) = length pre.
Proof.
  intros (_ & _ & Hv) Hc. rewrite transitions_valides_entree in Hv.
  intros He Hpre. revert e He.
  induction Hpre as [|s pre Hs Hpre IH]; intros e He; simpl; [done|].
  destruct (Hc e He s Hs) as [e' He'].
  rewrite (proj2 (pas_Some afd e s e')) by done. simpl. f_equal.
  apply IH. by apply (Hv e s e').
Qed.

(** C5, as the code has it.  When [bad] is the first symbol outside the
    alphabet, [accepter_chaine] returns [False] and the symbols after [bad]
    are never taken from the input.  The loop returns at [bad] itself
    exactly when every symbol before it could be read, which is the case on
    a valid automaton whose table is total; otherwise it has returned
    earlier, at the first symbol without transition. *)
Theorem accepter_chaine_symbole_invalide
    (afd : AFD) (pre : list string) (bad : string) (rest : list string) :
  Forall (λ s, s ∈ alphabet afd) pre →
  bad ∉ alphabet afd →
  fst (Core.accepter_chaine afd (pre ++ bad :: rest)) = false ∧
  rest `suffix_of`
    snd (Core.boucle_accepter (Core.reinitialiser afd) (pre ++ bad :: rest)) ∧
  (snd (Core.boucle_accepter (Core.reinitialiser afd) (pre ++ bad :: rest)) = rest
   ↔ length (fst (Core.obtenir_chemin afd pre)) = length pre + 1) ∧
  (definition_valide (definition_de afd) → complet (definition_de afd) →
   snd (Core.boucle_accepter (Core.reinitialiser afd) (pre ++ bad :: rest)) = rest).
Proof.
  intros Hpre Hbad.
  rewrite core_accepter_chaine_suite, core_boucle_accepter_suite,
    core_obtenir_chemin_suite.
  simpl. unfold Core.reinitialiser. rewrite suite_set_etat_actuel.
  rewrite suite_symbole_invalide by done.
  pose proof (length_suite afd (etat_initial afd) pre) as Hlen.
  set (l := suite afd (etat_initial afd) pre) in *.
  assert (drop (S (length pre)) (pre ++ bad :: rest) = rest) as Hrest.
  { change (S (length pre)) with (1 + length pre).
    by rewrite Nat.add_comm, <- drop_drop, drop_app_length. }
  assert (length l = length pre →
          drop (S (length l)) (pre ++ bad :: rest) = rest) as Hexact.
  { intros ->. exact Hrest. }
  split; [|split; [|split]].
  - rewrite bool_decide_eq_false_2; [done|].
    rewrite length_app. simpl. lia.
  - rewrite <- Hrest at 1.
    replace (S (length pre)) with (S (length l) + (length pre - length l)) by lia.
    rewrite <- drop_drop. apply suffix_drop.
  - split; [|intros ?; apply Hexact; lia].
    intros Heq. apply (f_equal length) in Heq.
    rewrite length_drop, length_app in Heq. simpl in Heq. lia.
  - intros Hv Hc. apply Hexact, suite_complet; [done|done| |done].
    exact (proj1 Hv).
Qed.

Lemma accepter_chaine_symbole_invalide_witness :
  fst (Core.accepter_chaine Core.creer_afd_exemple ["a"; "c"; "b"]) = false ∧
  snd (Core.boucle_accepter (Core.reinitialiser Core.creer_afd_exemple)
                            ["a"; "c"; "b"]) = ["b"].
Proof.
  destruct (accepter_chaine_symbole_invalide Core.creer_afd_exemple ["a"] "c" ["b"])
    as (Hfaux & _ & _ & Hcomplet).
  - apply (bool_decide_eq_true_1 _). vm_compute. reflexivity.
  - apply (bool_decide_eq_false_1 _). vm_compute. reflexivity.
  - split; [exact Hfaux|]. apply Hcomplet.
    + apply (bool_decide_eq_true_1 _). vm_compute. reflexivity.
    + apply (bool_decide_eq_true_1 _). vm_compute. reflexivity.
Defined.

(** C5 fails as stated on a valid automaton with a partial table: on
    [b c] the loop returns at [b], which is in the alphabet, before the
    first symbol outside the alphabet is reached; [c] is still in the
    input. *)
Lemma accepter_chaine_symbole_invalide_counterexample :
  let afd := Core.init definition_partielle in
  definition_valide definition_partielle ∧
  Forall (λ s, s ∈ alphabet afd) ["b"] ∧
  ("c" ∉ alphabet afd) ∧
  fst (Core.accepter_chaine afd ["b"; "c"]) = false ∧
  Core.traiter_symbole (Core.reinitialiser afd) "b"
    = (false, Core.reinitialiser afd) ∧
  snd (Core.boucle_accepter (Core.reinitialiser afd) ["b"; "c"]) = ["c"] ∧
  snd (Core.boucle_accepter (Core.reinitialiser afd) ["b"; "c"]) ≠ [].
Proof.
  cbv zeta. split; [|split; [|split]].
  - apply (bool_decide_eq_true_1 _). vm_compute. reflexivity.
  - apply (bool_decide_eq_true_1 _). vm_compute. reflexivity.
  - apply (bool_decide_eq_false_1 _). vm_compute. reflexivity.
  - vm_compute. repeat split; try reflexivity. discriminate.
Qed.

(** * Further properties of the engine *)

(** ** Reading a concatenation *)

(** The state reached from [e] over [chaine], when every symbol is read. *)
Lemma suite_app afd e l1 l2 :
  suite afd e (l1 ++ l2) =
    if bool_decide (length (suite afd e l1) = length l1)
    then suite afd e l1 ++ suite afd (default e (last (suite afd e l1))) l2
    else suite afd e l1.
Proof.
  revert e. induction l1 as [|s l1 IH]; intros e; simpl; [done|].
  destruct (pas afd e s) as [e'|]; simpl; [|done].
  rewrite IH, last_cons.
  rewrite (bool_decide_ext (S (length (suite afd e' l1)) = S (length l1))
                           (length (suite afd e' l1) = length l1)) by lia.
  destruct (bool_decide _); [|done].
  by destruct (last (suite afd e' l1)).
Qed.

(** The object left behind by [accepter_chaine] and by [obtenir_chemin] is
    the same: its current state is the last state of the path, and its
    other attributes are those it had. *)
Theorem etat_laisse_par_un_appel (afd : AFD) (chaine : list string) :
  snd (Core.accepter_chaine afd chaine) = snd (Core.obtenir_chemin afd chaine) ∧
  last (fst (Core.obtenir_chemin afd chaine))
    = Some (etat_actuel (snd (Core.obtenir_chemin afd chaine))) ∧
  definition_de (snd (Core.obtenir_chemin afd chaine)) = definition_de afd.
Proof.
  rewrite core_accepter_chaine_suite, core_obtenir_chemin_suite. simpl.
  split; [done|]. split; [|by rewrite definition_de_foldl].
  rewrite etat_actuel_foldl, last_cons. simpl.
  by destruct (last (suite afd (etat_initial afd) chaine)).
Qed.

(** The path of a prefix is a prefix of the path.  Once a prefix has been
    rejected (its path is short), whatever follows changes nothing: the
    path stays the same and the input is not accepted. *)
Theorem chemin_d_un_prefixe (afd : AFD) (debut fin : list string) :
  fst (Core.obtenir_chemin afd debut)
    `prefix_of` fst (Core.obtenir_chemin afd (debut ++ fin)) ∧
  (length (fst (Core.obtenir_chemin afd debut)) < length debut + 1 →
   fst (Core.obtenir_chemin afd (debut ++ fin))
     = fst (Core.obtenir_chemin afd debut) ∧
   fst (Core.accepter_chaine afd (debut ++ fin)) = false).
Proof.
  rewrite !core_obtenir_chemin_suite, core_accepter_chaine_suite. simpl.
  rewrite suite_app.
  pose proof (length_suite afd (etat_initial afd) debut) as Hlen.
  set (l := suite afd (etat_initial afd) debut) in *.
  split.
  - destruct (bool_decide (length l = length debut)).
    + rewrite app_comm_cons. by apply prefix_app_r.
    + done.
  - intros Hcourt. rewrite bool_decide_eq_false_2 by lia.
    split; [done|]. rewrite bool_decide_eq_false_2; [done|].
    rewrite length_app. lia.
Qed.

Lemma chemin_d_un_prefixe_witness :
  fst (Core.obtenir_chemin (Core.init definition_partielle) (["b"] ++ ["a"]))
    = fst (Core.obtenir_chemin (Core.init definition_partielle) ["b"]) ∧
  fst (Core.accepter_chaine (Core.init definition_partielle) (["b"] ++ ["a"]))
    = false.
Proof.
  apply (proj2 (chemin_d_un_prefixe (Core.init definition_partielle) ["b"] ["a"])).
  vm_compute. lia.
Defined.

(** Reading one more symbol.  When [chaine] is read to its end, the
    results on [chaine] followed by [symbole] are those of one call of
    [traiter_symbole] on the object [obtenir_chemin] left behind: the path
    grows by the new current state if the call returns [True], and the
    input is accepted if moreover that state is accepting. *)
Theorem un_symbole_de_plus (afd : AFD) (chaine : list string) (symbole : string) :
  length (fst (Core.obtenir_chemin afd chaine)) = length chaine + 1 →
  fst (Core.obtenir_chemin afd (chaine ++ [symbole])) =
    fst (Core.obtenir_chemin afd chaine) ++
    (if fst (Core.traiter_symbole (snd (Core.obtenir_chemin afd chaine)) symbole)
     then [etat_actuel (snd (Core.traiter_symbole
                               (snd (Core.obtenir_chemin afd chaine)) symbole))]
     else []) ∧
  fst (Core.accepter_chaine afd (chaine ++ [symbole])) =
    fst (Core.traiter_symbole (snd (Core.obtenir_chemin afd chaine)) symbole)
    && bool_decide
         (etat_actuel (snd (Core.traiter_symbole
                              (snd (Core.obtenir_chemin afd chaine)) symbole))
          ∈ etats_finaux afd) ∧
  snd (Core.obtenir_chemin afd (chaine ++ [symbole])) =
    snd (Core.traiter_symbole (snd (Core.obtenir_chemin afd chaine)) symbole).
Proof.
  rewrite !core_obtenir_chemin_suite, core_accepter_chaine_suite. simpl.
  intros Hlen. rewrite suite_app.
  set (l := suite afd (etat_initial afd) chaine) in *.
  rewrite bool_decide_eq_true_2 by lia.
  rewrite core_traiter_symbole_pas, etat_actuel_foldl. simpl.
  set (e := default (etat_initial afd) (last l)).
  assert (pas (foldl set_etat_actuel (Core.reinitialiser afd) l) e symbole
          = pas afd e symbole) as ->.
  { unfold pas.
    pose proof (definition_de_foldl (Core.reinitialiser afd) l) as Hd.
    pose proof (f_equal d_alphabet Hd) as Ha.
    pose proof (f_equal d_transitions Hd) as Ht.
    simpl in Ha, Ht. by rewrite Ha, Ht. }
  destruct (pas afd e symbole) as [e'|]; simpl.
  - rewrite !length_app, last_snoc, foldl_snoc. simpl.
    rewrite (bool_decide_eq_true_2 (length l + 1 = length chaine + 1)) by lia.
    done.
  - rewrite !app_nil_r, length_app. simpl.
    rewrite (bool_decide_eq_false_2 (length l = length chaine + 1)) by lia.
    done.
Qed.

Lemma un_symbole_de_plus_witness :
  fst (Core.obtenir_chemin Core.creer_afd_exemple (["a"] ++ ["b"])) =
    fst (Core.obtenir_chemin Core.creer_afd_exemple ["a"]) ++
    (if fst (Core.traiter_symbole
               (snd (Core.obtenir_chemin Core.creer_afd_exemple ["a"])) "b")
     then [etat_actuel (snd (Core.traiter_symbole
             (snd (Core.obtenir_chemin Core.creer_afd_exemple ["a"])) "b"))]
     else []).
Proof.
  apply (un_symbole_de_plus Core.creer_afd_exemple ["a"] "b").
  vm_compute. reflexivity.
Defined.

(** ** Declared states *)

Lemma suite_etats afd e chaine :
  transitions_valides (definition_de afd) →
  Forall (λ e', e' ∈ etats afd) (suite afd e chaine).
Proof.
  rewrite transitions_valides_entree. intros Hv. revert e.
  induction chaine as [|s reste IH]; intros e; simpl; [constructor|].
  destruct (pas afd e s) as [e'|] eqn:Hpas; [|constructor].
  apply pas_Some in Hpas as [_ He']. constructor; [|apply IH].
  by apply (Hv e s e').
Qed.

Lemma etats_foldl_executer afd appels :
  etats (foldl executer afd appels) = etats afd.
Proof. exact (f_equal d_etats (foldl_executer_definition afd appels)). Qed.

Lemma dernier_de_suite_etats afd chaine :
  initial_valide (definition_de afd) → transitions_valides (definition_de afd) →
  default (etat_initial afd) (last (suite afd (etat_initial afd) chaine))
    ∈ etats afd.
Proof.
  intros Hi Hv.
  pose proof (suite_etats afd (etat_initial afd) chaine Hv) as Hl.
  destruct (last _) as [e|] eqn:Hlast; simpl; [|exact Hi].
  rewrite Forall_forall in Hl. apply Hl.
  rewrite last_lookup in Hlast. by eapply list_elem_of_lookup_2.
Qed.

Lemma destinations_declarees_entree d :
  destinations_declarees d ↔
  ∀ e s e', entree (d_transitions d) e s = Some e' → e' ∈ d_etats d.
Proof.
  unfold destinations_declarees, entree. split.
  - intros Hv e s e' He.
    destruct (d_transitions d !! e) as [ligne|] eqn:Hl; [|done].
    exact (Hv e ligne Hl s e' He).
  - intros Hv e ligne Hl s e' He. apply (Hv e s e'). by rewrite Hl.
Qed.

Lemma extremites_declarees_entree d :
  extremites_declarees d ↔
  ∀ e s e', entree (d_transitions d) e s = Some e' →
            e ∈ d_etats d ∧ e' ∈ d_etats d.
Proof.
  unfold extremites_declarees, entree. split.
  - intros Hv e s e' He.
    destruct (d_transitions d !! e) as [ligne|] eqn:Hl; [|done].
    exact (Hv e ligne Hl s e' He).
  - intros Hv e ligne Hl s e' He. apply (Hv e s e'). by rewrite Hl.
Qed.

Lemma suite_destinations afd e chaine :
  destinations_declarees (definition_de afd) →
  Forall (λ e', e' ∈ etats afd) (suite afd e chaine).
Proof.
  rewrite destinations_declarees_entree. intros Hv. revert e.
  induction chaine as [|s reste IH]; intros e; simpl; [constructor|].
  destruct (pas afd e s) as [e'|] eqn:Hpas; [|constructor].
  apply pas_Some in Hpas as [_ He']. constructor; [|apply IH].
  by apply (Hv e s e').
Qed.

Lemma dernier_de_suite_destinations afd chaine :
  initial_valide (definition_de afd) →
  destinations_declarees (definition_de afd) →
  default (etat_initial afd) (last (suite afd (etat_initial afd) chaine))
    ∈ etats afd.
Proof.
  intros Hi Hv.
  pose proof (suite_destinations afd (etat_initial afd) chaine Hv) as Hl.
  destruct (last _) as [e|] eqn:Hlast; simpl; [|exact Hi].
  rewrite Forall_forall in Hl. apply Hl.
  rewrite last_lookup in Hlast. by eapply list_elem_of_lookup_2.
Qed.

Lemma executer_etats afd a :
  initial_valide (definition_de afd) →
  destinations_declarees (definition_de afd) →
  etat_actuel afd ∈ etats afd →
  etat_actuel (executer afd a) ∈ etats afd.
Proof.
  intros Hi Hv He. destruct a as [|s|chaine|chaine]; simpl.
  - exact Hi.
  - rewrite core_traiter_symbole_pas.
    destruct (pas afd (etat_actuel afd) s) as [e'|] eqn:Hpas; simpl; [|done].
    apply pas_Some in Hpas as [_ He'].
    rewrite destinations_declarees_entree in Hv.
    by apply (Hv (etat_actuel afd) s e').
  - rewrite core_accepter_chaine_suite. simpl. rewrite etat_actuel_foldl.
    by apply dernier_de_suite_destinations.
  - rewrite core_obtenir_chemin_suite. simpl. rewrite etat_actuel_foldl.
    by apply dernier_de_suite_destinations.
Qed.

(** On an automaton whose initial state and transition destinations are
    declared, whatever the sources and symbols of its table, the engine
    never leaves the declared states: every state of a path is in
    [etats], and whatever calls are made on an object whose current state
    is declared, its current state stays declared. *)
Theorem etats_declares
    (afd : AFD) (appels : list Appel) (chaine : list string) :
  initial_valide (definition_de afd) →
  destinations_declarees (definition_de afd) →
  Forall (λ e, e ∈ etats afd) (fst (Core.obtenir_chemin afd chaine)) ∧
  (etat_actuel afd ∈ etats afd →
   etat_actuel (foldl executer afd appels) ∈ etats afd).
Proof.
  intros Hi Hv. split.
  - rewrite core_obtenir_chemin_suite. simpl.
    constructor; [exact Hi|by apply suite_destinations].
  - revert afd Hi Hv.
    induction appels as [|a appels IH]; intros afd Hi Hv He; simpl; [done|].
    pose proof (executer_definition afd a) as Hd.
    pose proof (f_equal d_etats Hd) as Hetats. simpl in Hetats.
    rewrite <- Hetats. apply IH.
    + by rewrite Hd.
    + by rewrite Hd.
    + rewrite Hetats. by apply executer_etats.
Qed.

Lemma etats_declares_witness :
  Forall (λ e, e ∈ etats (Core.init definition_symbole_non_declare))
         (fst (Core.obtenir_chemin (Core.init definition_symbole_non_declare)
                                   ["a"; "a"; "z"])) ∧
  etat_actuel (foldl executer (Core.init definition_symbole_non_declare)
                     [Traiter "a"; Accepter ["a"; "z"]; Traiter "a"])
    ∈ etats (Core.init definition_symbole_non_declare).
Proof.
  destruct (etats_declares (Core.init definition_symbole_non_declare)
              [Traiter "a"; Accepter ["a"; "z"]; Traiter "a"] ["a"; "a"; "z"])
    as [Hchemin Hetat].
  - apply (bool_decide_eq_true_1 _). vm_compute. reflexivity.
  - apply (bool_decide_eq_true_1 _). vm_compute. reflexivity.
  - split; [exact Hchemin|]. apply Hetat.
    apply (bool_decide_eq_true_1 _). vm_compute. reflexivity.
Defined.

(** ** Inputs over the alphabet *)

(** The callers test [all(char in afd.alphabet for char in chaine)] before
    they call the engine.  On a valid automaton whose table is total such
    an input is always read to its end: the path has one state per symbol
    after the initial one, and the input is accepted exactly when the
    state the object is left in is accepting. *)
Theorem chaine_sur_l_alphabet (afd : AFD) (chaine : list string) :
  definition_valide (definition_de afd) →
  complet (definition_de afd) →
  Forall (λ s, s ∈ alphabet afd) chaine →
  length (fst (Core.obtenir_chemin afd chaine)) = length chaine + 1 ∧
  fst (Core.accepter_chaine afd chaine) =
    bool_decide (etat_actuel (snd (Core.obtenir_chemin afd chaine))
                 ∈ etats_finaux afd).
Proof.
  intros Hv Hc Hchaine.
  rewrite core_obtenir_chemin_suite, core_accepter_chaine_suite. simpl.
  rewrite etat_actuel_foldl. simpl.
  pose proof (suite_complet afd (etat_initial afd) chaine Hv Hc (proj1 Hv) Hchaine)
    as Hlen.
  rewrite Hlen. split; [lia|]. by rewrite bool_decide_eq_true_2.
Qed.

Lemma chaine_sur_l_alphabet_witness :
  length (fst (Core.obtenir_chemin Core.creer_afd_exemple ["a"; "b"; "a"]))
    = length ["a"; "b"; "a"] + 1 ∧
  fst (Core.accepter_chaine Core.creer_afd_exemple ["a"; "b"; "a"]) =
    bool_decide (etat_actuel (snd (Core.obtenir_chemin Core.creer_afd_exemple
                                     ["a"; "b"; "a"]))
                 ∈ etats_finaux Core.creer_afd_exemple).
Proof.
  apply (chaine_sur_l_alphabet Core.creer_afd_exemple ["a"; "b"; "a"]).
  - apply (bool_decide_eq_true_1 _). vm_compute. reflexivity.
  - apply (bool_decide_eq_true_1 _). vm_compute. reflexivity.
  - apply (bool_decide_eq_true_1 _). vm_compute. reflexivity.
Defined.

(** * The callers *)

(** ** The detailed steps of afd_interface.py *)

(** On an input over the alphabet the loop follows the same entries as
    the engine, and stops where the engine stops. *)
Lemma boucle_etapes_suite afd e i chaine :
  Forall (λ s, s ∈ alphabet afd) chaine →
  length (fst (Interface.boucle_etapes afd e i chaine))
    = length (suite afd e chaine) ∧
  (snd (Interface.boucle_etapes afd e i chaine) = None
   ↔ length (suite afd e chaine) = length chaine) ∧
  ∀ j et,
    fst (Interface.boucle_etapes afd e i chaine) !! j = Some et →
    ∃ p c q, et = Interface.Etape (i + j + 1) p c q ∧
             (e :: suite afd e chaine) !! j = Some p ∧
             chaine !! j = Some c ∧
             suite afd e chaine !! j = Some q.
Proof.
  intros Hchaine. revert e i.
  induction Hchaine as [|s reste Hs Hreste IH]; intros e i; simpl.
  - split; [done|]. split; [done|]. intros j et Hj. by destruct j.
  - unfold pas, entree. rewrite bool_decide_eq_true_2 by done.
    destruct (transitions afd !! e) as [ligne|] eqn:Hligne; simpl;
      [|split; [done|]; split; [done|]; intros j et Hj; by destruct j].
    destruct (ligne !! s) as [e'|] eqn:He'; simpl;
      [|split; [done|]; split; [done|]; intros j et Hj; by destruct j].
    destruct (IH e' (S i)) as (Hlen & Hexc & Hlook).
    destruct (Interface.boucle_etapes afd e' (S i) reste) as [ecrit exc].
    simpl in *. split; [by rewrite Hlen|]. split.
    + rewrite Hexc. lia.
    + intros [|j] et Hj; simpl in *.
      * injection Hj as <-. exists e, s, e'.
        split; [f_equal; lia|done].
      * destruct (Hlook j et Hj) as (p & c & q & -> & Hp & Hc & Hq).
        exists p, c, q. split; [f_equal; lia|done].
Qed.

(** The detailed steps shown by [afd_interface.py] agree with the path.
    For an input over the alphabet, the loop writes one line per
    transition of the path returned by [obtenir_chemin], numbered from 1,
    each with the two consecutive states of the path and the symbol read
    between them; it ends without [KeyError] exactly when the path has one
    state per symbol after the initial one. *)
Theorem etapes_detaillees (afd : AFD) (chaine : list string) :
  Forall (λ s, s ∈ alphabet afd) chaine →
  length (fst (Interface.boucle_etapes afd (etat_initial afd) 0 chaine)) + 1
    = length (fst (Core.obtenir_chemin afd chaine)) ∧
  (snd (Interface.boucle_etapes afd (etat_initial afd) 0 chaine) = None
   ↔ length (fst (Core.obtenir_chemin afd chaine)) = length chaine + 1) ∧
  ∀ j et,
    fst (Interface.boucle_etapes afd (etat_initial afd) 0 chaine) !! j = Some et →
    ∃ p c q, et = Interface.Etape (j + 1) p c q ∧
             fst (Core.obtenir_chemin afd chaine) !! j = Some p ∧
             chaine !! j = Some c ∧
             fst (Core.obtenir_chemin afd chaine) !! S j = Some q.
Proof.
  intros Hchaine. rewrite core_obtenir_chemin_suite. simpl fst.
  destruct (boucle_etapes_suite afd (etat_initial afd) 0 chaine Hchaine)
    as (Hlen & Hexc & Hlook).
  split; [simpl; lia|]. split; [rewrite Hexc; simpl; lia|].
  intros j et Hj. destruct (Hlook j et Hj) as (p & c & q & -> & Hp & Hc & Hq).
  by exists p, c, q.
Qed.

Lemma etapes_detaillees_witness :
  snd (Interface.boucle_etapes (Core.init definition_partielle) "q0" 0 ["a"; "b"])
    = None
  ↔ length (fst (Core.obtenir_chemin (Core.init definition_partielle) ["a"; "b"]))
    = length ["a"; "b"] + 1.
Proof.
  apply (etapes_detaillees (Core.init definition_partielle) ["a"; "b"]).
  apply (bool_decide_eq_true_1 _). vm_compute. reflexivity.
Defined.

Lemma boucle_etapes_definition afd1 afd2 e i chaine :
  transitions afd1 = transitions afd2 →
  Interface.boucle_etapes afd1 e i chaine = Interface.boucle_etapes afd2 e i chaine.
Proof.
  intros Ht. revert e i. induction chaine as [|s reste IH]; intros e i; simpl.
  - done.
  - rewrite Ht. destruct (transitions afd2 !! e) as [ligne|]; [|done].
    destruct (ligne !! s); [|done]. by rewrite IH.
Qed.

Lemma forallb_alphabet afd chaine :
  forallb (λ char, bool_decide (char ∈ alphabet afd)) chaine = true
  ↔ Forall (λ s, s ∈ alphabet afd) chaine.
Proof.
  rewrite forallb_forall, Forall_forall.
  split; intros H x Hx.
  - apply list_elem_of_In in Hx. exact (bool_decide_eq_true_1 _ (H x Hx)).
  - apply list_elem_of_In in Hx. exact (bool_decide_eq_true_2 _ (H x Hx)).
Qed.

(** On a valid automaton whose table is total, as the example automaton
    [main] builds, the handler of the button never lets a [KeyError]
    escape, whatever is typed.  An input over the alphabet is shown with
    its verdict, its path and exactly one step per symbol; any other
    non-empty input only gets the error message, and the engine is not
    called. *)
Theorem verifier_la_chaine_sans_exception (afd : AFD) (chaine : list string) :
  definition_valide (definition_de afd) →
  complet (definition_de afd) →
  snd (fst (Interface.verifier_la_chaine afd chaine)) = None ∧
  (chaine ≠ [] → Forall (λ s, s ∈ alphabet afd) chaine →
   ∃ etapes,
     fst (fst (Interface.verifier_la_chaine afd chaine)) =
       Interface.Verdict (fst (Core.accepter_chaine afd chaine))
       :: Interface.Chemin_parcouru
            (String.concat " → " (fst (Core.obtenir_chemin afd chaine)))
       :: etapes ∧
     length etapes = length chaine ∧
     snd (Interface.verifier_la_chaine afd chaine) = Core.reinitialiser afd) ∧
  (chaine ≠ [] → ¬ Forall (λ s, s ∈ alphabet afd) chaine →
   Interface.verifier_la_chaine afd chaine
     = ([Interface.Caracteres_invalides], None, afd)).
Proof.
  intros Hv Hc. unfold Interface.verifier_la_chaine.
  destruct (decide (chaine = [])) as [->|Hne]; [by repeat split|].
  rewrite bool_decide_eq_true_2 by done.
  destruct (forallb _ chaine) eqn:Hall.
  - apply forallb_alphabet in Hall.
    pose proof (core_accepter_chaine_definition afd chaine) as Hd1.
    destruct (Core.accepter_chaine afd chaine) as [resultat afd1]. simpl in Hd1.
    pose proof (core_obtenir_chemin_definition afd1 chaine) as Hd2.
    rewrite (core_obtenir_chemin_meme_definition afd1 afd chaine Hd1).
    rewrite (core_obtenir_chemin_meme_definition afd1 afd chaine Hd1) in Hd2.
    destruct (Core.obtenir_chemin afd chaine) as [chemin afd2]. simpl in Hd2.
    rewrite Hd1 in Hd2.
    assert (Core.reinitialiser afd2 = Core.reinitialiser afd) as ->
      by (by rewrite !core_reinitialiser_init, Hd2).
    change (etat_initial (Core.reinitialiser afd)) with (etat_initial afd).
    rewrite (boucle_etapes_definition (Core.reinitialiser afd) afd) by done.
    destruct (boucle_etapes_suite afd (etat_initial afd) 0 chaine Hall)
      as (Hlen & Hexc & _).
    pose proof (suite_complet afd (etat_initial afd) chaine Hv Hc (proj1 Hv) Hall)
      as Hplein.
    destruct (Interface.boucle_etapes afd (etat_initial afd) 0 chaine)
      as [ecrit exc]. simpl in *.
    split; [by apply Hexc|]. split; [|done].
    intros _ _. exists ecrit. split; [done|]. split; [lia|done].
  - split; [done|]. split; [|done].
    intros _ Hall'. apply forallb_alphabet in Hall'. congruence.
Qed.

Lemma verifier_la_chaine_sans_exception_witness :
  snd (fst (Interface.verifier_la_chaine Core.creer_afd_exemple ["a"; "b"; "b"]))
    = None.
Proof.
  apply (verifier_la_chaine_sans_exception Core.creer_afd_exemple ["a"; "b"; "b"]).
  - apply (bool_decide_eq_true_1 _). vm_compute. reflexivity.
  - apply (bool_decide_eq_true_1 _). vm_compute. reflexivity.
Defined.

(** ** The language of the example automaton *)

Lemma suite_plein_alphabet afd e chaine :
  length (suite afd e chaine) = length chaine →
  Forall (λ s, s ∈ alphabet afd) chaine.
Proof.
  revert e. induction chaine as [|s reste IH]; intros e; simpl; [constructor|].
  destruct (pas afd e s) as [e'|] eqn:Hpas; simpl; [|done].
  intros [= Hlen]. apply pas_Some in Hpas as [Hs _].
  constructor; [done|by eapply IH].
Qed.

Lemma exemple_alphabet s :
  s ∈ alphabet Core.creer_afd_exemple ↔ s = "a" ∨ s = "b".
Proof. simpl. rewrite elem_of_union, !elem_of_singleton. tauto. Qed.

Lemma exemple_etats e :
  e ∈ etats Core.creer_afd_exemple ↔ e = "q0" ∨ e = "q1" ∨ e = "q2".
Proof. simpl. rewrite !elem_of_union, !elem_of_singleton. tauto. Qed.

Lemma exemple_valide : definition_valide (definition_de Core.creer_afd_exemple).
Proof. apply (bool_decide_eq_true_1 _). vm_compute. reflexivity. Qed.

Lemma exemple_complet : complet (definition_de Core.creer_afd_exemple).
Proof. apply (bool_decide_eq_true_1 _). vm_compute. reflexivity. Qed.

(** Where the example automaton stands after an input over [a], [b]: in
    [q1] after a final [a], in [q2] after a final [a b]. *)
Lemma exemple_etat_atteint chaine :
  Forall (λ s, s = "a" ∨ s = "b") chaine →
  length (suite Core.creer_afd_exemple "q0" chaine) = length chaine ∧
  (default "q0" (last (suite Core.creer_afd_exemple "q0" chaine)) = "q1"
   ↔ last chaine = Some "a") ∧
  (default "q0" (last (suite Core.creer_afd_exemple "q0" chaine)) = "q2"
   ↔ ∃ debut, chaine = debut ++ ["a"; "b"]).
Proof.
  induction chaine as [|c chaine IH] using rev_ind; intros Hab.
  - simpl. split; [done|]. split; [done|]. split; [done|].
    intros [debut Hd]. by destruct debut as [|? [|? ?]].
  - apply Forall_app in Hab as [Hab Hc]. rewrite Forall_singleton in Hc.
    destruct (IH Hab) as (Hlen & Hq1 & Hq2). clear IH.
    pose proof (dernier_de_suite_etats Core.creer_afd_exemple chaine
                  (proj1 exemple_valide) (proj2 (proj2 exemple_valide))) as He.
    change (etat_initial Core.creer_afd_exemple) with "q0" in He.
    rewrite suite_app, bool_decide_eq_true_2 by done.
    set (l := suite Core.creer_afd_exemple "q0" chaine) in *.
    set (e := default "q0" (last l)) in *.
    rewrite length_app, !length_app, Hlen, !last_snoc.
    apply exemple_etats in He.
    assert (∀ debut, chaine ++ ["b"] = debut ++ ["a"; "b"]
                     ↔ chaine = debut ++ ["a"]) as Hfin.
    { intros debut. change ["a"; "b"] with (["a"] ++ ["b"]).
      rewrite app_assoc. split; [|by intros ->].
      by intros ?%(inj (λ x, x ++ ["b"])). }
    assert (∀ debut, chaine ++ ["a"] ≠ debut ++ ["a"; "b"]) as Hpas_b.
    { intros debut. change ["a"; "b"] with (["a"] ++ ["b"]).
      rewrite app_assoc. by intros [_ ?]%app_inj_tail. }
    simpl in Hc. destruct Hc as [Hc | Hc]; rewrite Hc.
    + assert (suite Core.creer_afd_exemple e ["a"] = ["q1"]) as ->
        by (destruct He as [He | [He | He]]; rewrite He; vm_compute; reflexivity).
      rewrite last_snoc. simpl. split; [lia|]. split; [done|].
      split; [done|]. by intros [debut ?%Hpas_b].
    + destruct He as [He | [He | He]].
      * assert (suite Core.creer_afd_exemple e ["b"] = ["q0"]) as ->
          by (rewrite He; vm_compute; reflexivity).
        rewrite last_snoc. simpl. split; [lia|]. split; [done|].
        split; [done|]. intros [debut Hd%Hfin].
        assert (last chaine = Some "a") as Ha by (by rewrite Hd, last_snoc).
        apply Hq1 in Ha. congruence.
      * assert (suite Core.creer_afd_exemple e ["b"] = ["q2"]) as ->
          by (rewrite He; vm_compute; reflexivity).
        rewrite last_snoc. simpl. split; [lia|]. split; [done|].
        split; [|done]. intros _.
        apply Hq1 in He. apply last_Some in He as [debut ->].
        exists debut. by rewrite <- app_assoc.
      * assert (suite Core.creer_afd_exemple e ["b"] = ["q0"]) as ->
          by (rewrite He; vm_compute; reflexivity).
        rewrite last_snoc. simpl. split; [lia|]. split; [done|].
        split; [done|]. intros [debut Hd%Hfin].
        assert (last chaine = Some "a") as Ha by (by rewrite Hd, last_snoc).
        apply Hq1 in Ha. congruence.
Qed.

(** The automaton of [creer_afd_exemple] accepts exactly the inputs made
    of [a] and [b] that end with [a b]; the example of the two visualizers
    passes the checks of the dataclass constructor and is the same
    automaton. *)
Theorem langage_de_l_exemple (chaine : list string) :
  Visualizer.creer_afd_exemple = inr Core.creer_afd_exemple ∧
  (fst (Core.accepter_chaine Core.creer_afd_exemple chaine) = true ↔
   Forall (λ s, s = "a" ∨ s = "b") chaine ∧
   ∃ debut, chaine = debut ++ ["a"; "b"]).
Proof.
  split; [vm_compute; reflexivity|].
  rewrite core_accepter_chaine_suite. simpl fst.
  change (etat_initial Core.creer_afd_exemple) with "q0".
  rewrite andb_true_iff, !bool_decide_eq_true.
  change (etats_finaux Core.creer_afd_exemple) with ({["q2"]} : gset string).
  rewrite elem_of_singleton. split.
  - intros [Hlen Hq2].
    assert (Forall (λ s, s = "a" ∨ s = "b") chaine) as Hab.
    { apply suite_plein_alphabet in Hlen.
      eapply Forall_impl; [exact Hlen|]. intros s. apply exemple_alphabet. }
    split; [done|]. by apply (exemple_etat_atteint chaine Hab).
  - intros [Hab Hfin].
    destruct (exemple_etat_atteint chaine Hab) as (Hlen & _ & Hq2).
    split; [done|]. by apply Hq2.
Qed.

(** ** The graph of the visualizers *)

Lemma setdefault_append_cles edges cle sym :
  (Visualizer.setdefault_append edges cle sym).*1 =
    if bool_decide (cle ∈ edges.*1) then edges.*1 else edges.*1 ++ [cle].
Proof.
  induction edges as [|[cle' syms] reste IH]; [done|].
  cbn [Visualizer.setdefault_append].
  destruct (bool_decide (cle' = cle)) eqn:Hcle; rewrite !fmap_cons; cbn [fst].
  - apply bool_decide_eq_true in Hcle as ->.
    by rewrite bool_decide_eq_true_2 by left.
  - apply bool_decide_eq_false in Hcle. rewrite IH.
    rewrite (bool_decide_ext (cle ∈ cle' :: reste.*1) (cle ∈ reste.*1)).
    + by destruct (bool_decide (cle ∈ reste.*1)).
    + rewrite elem_of_cons. split; [intros [?|?]; [congruence|done]|by right].
Qed.

Lemma setdefault_append_NoDup edges cle sym :
  NoDup edges.*1 → NoDup (Visualizer.setdefault_append edges cle sym).*1.
Proof.
  intros Hnd. rewrite setdefault_append_cles.
  destruct (bool_decide (cle ∈ edges.*1)) eqn:Hcle; [done|].
  apply bool_decide_eq_false in Hcle.
  apply NoDup_app. split; [done|]. split; [|apply NoDup_singleton].
  intros x Hx ->%list_elem_of_singleton. done.
Qed.

(** [setdefault] then [append], seen on the dictionary. *)
Lemma setdefault_append_map edges cle sym :
  (list_to_map (Visualizer.setdefault_append edges cle sym)
     : gmap (string * string) (list string)) =
  <[cle := default [] ((list_to_map edges : gmap (string * string) (list string))
                         !! cle) ++ [sym]]> (list_to_map edges).
Proof.
  induction edges as [|[cle' syms] reste IH]; simpl.
  - by rewrite lookup_empty.
  - destruct (bool_decide (cle' = cle)) eqn:Hcle; simpl.
    + apply bool_decide_eq_true in Hcle as ->.
      by rewrite lookup_insert_eq, insert_insert_eq.
    + apply bool_decide_eq_false in Hcle.
      rewrite IH, lookup_insert_ne by done. by apply insert_insert_ne.
Qed.

Lemma conforme_nil : conforme [] [].
Proof.
  split; [constructor|]. intros src dst. simpl. rewrite lookup_empty.
  intros sym. apply not_elem_of_nil.
Qed.

Lemma conforme_setdefault_append edges vus src sym dst :
  conforme edges vus → (src, sym, dst) ∉ vus →
  conforme (Visualizer.setdefault_append edges (src, dst) sym)
           (vus ++ [(src, sym, dst)]).
Proof.
  intros [Hnd Hinv] Hnouveau. split; [by apply setdefault_append_NoDup|].
  intros src' dst'. rewrite setdefault_append_map.
  destruct (decide ((src, dst) = (src', dst'))) as [[= <- <-]|Hne].
  - rewrite lookup_insert_eq. specialize (Hinv src dst).
    destruct (list_to_map edges !! (src, dst)) as [syms|]; simpl.
    + destruct Hinv as (Hne & Hnds & Hsyms).
      split; [by destruct syms|]. split.
      * apply NoDup_app. split; [done|]. split; [|apply NoDup_singleton].
        intros x Hx ->%list_elem_of_singleton. by apply Hnouveau, Hsyms.
      * intros sym'. rewrite !elem_of_app, !list_elem_of_singleton, Hsyms.
        split; (intros [?|?]; [by left|right; congruence]).
    + split; [done|]. split; [apply NoDup_singleton|].
      intros sym'. rewrite elem_of_app, !list_elem_of_singleton.
      split; [intros ->; by right|].
      intros [Hvu|[= ->]]; [by apply Hinv in Hvu|done].
  - rewrite lookup_insert_ne by done. specialize (Hinv src' dst').
    destruct (list_to_map edges !! (src', dst')) as [syms|].
    + destruct Hinv as (Hne' & Hnds & Hsyms). split; [done|]. split; [done|].
      intros sym'. rewrite Hsyms, elem_of_app, list_elem_of_singleton.
      split; [by left|]. intros [?|[= -> _ ->]]; done.
    + intros sym'. rewrite elem_of_app, list_elem_of_singleton.
      specialize (Hinv sym'). intros [?|[= -> _ ->]]; done.
Qed.

Lemma conforme_foldl edges vus nouveaux :
  NoDup (vus ++ nouveaux) → conforme edges vus →
  conforme (foldl (λ edges '(src, sym, dst),
                     Visualizer.setdefault_append edges (src, dst) sym)
                  edges nouveaux)
           (vus ++ nouveaux).
Proof.
  revert edges vus.
  induction nouveaux as [|[[src sym] dst] nouveaux IH]; intros edges vus Hnd Hc.
  - by rewrite app_nil_r.
  - simpl.
    replace (vus ++ (src, sym, dst) :: nouveaux)
      with ((vus ++ [(src, sym, dst)]) ++ nouveaux) in *
      by (by rewrite <- app_assoc).
    apply IH; [done|].
    apply conforme_setdefault_append; [done|].
    apply NoDup_app in Hnd as (Hnd & _ & _).
    apply NoDup_app in Hnd as (_ & Hdisj & _).
    intros Hvu. apply (Hdisj _ Hvu). by left.
Qed.

Lemma foldl_meme_pas {A B} (f g : A → B → A) a l :
  (∀ a b, f a b = g a b) → foldl f a l = foldl g a l.
Proof.
  intros Hfg. revert a. induction l as [|b l IH]; intros a; simpl; [done|].
  by rewrite Hfg, IH.
Qed.

Lemma grouper_triplets t :
  Visualizer.grouper t =
    foldl (λ edges '(src, sym, dst),
             Visualizer.setdefault_append edges (src, dst) sym)
          [] (triplets t).
Proof.
  unfold Visualizer.grouper, triplets.
  generalize (@nil (string * string * list string)).
  induction (map_to_list t) as [|[src trans] lignes IH]; intros edges; simpl.
  - done.
  - rewrite foldl_app, foldl_fmap, IH. f_equal.
    apply foldl_meme_pas. by intros acc [sym dst].
Qed.

Lemma elem_of_triplets t src sym dst :
  (src, sym, dst) ∈ triplets t ↔ entree t src sym = Some dst.
Proof.
  unfold triplets, entree. rewrite list_elem_of_bind. split.
  - intros ([src' trans] & Hin & Hligne).
    apply list_elem_of_fmap in Hin as ([sym' dst'] & [= -> -> ->] & Hin).
    apply elem_of_map_to_list in Hligne, Hin. by rewrite Hligne.
  - destruct (t !! src) as [trans|] eqn:Hligne; [|done]. intros Hin.
    exists (src, trans). split; [|by apply elem_of_map_to_list].
    apply list_elem_of_fmap. exists (sym, dst).
    split; [done|by apply elem_of_map_to_list].
Qed.

Lemma NoDup_triplets t : NoDup (triplets t).
Proof.
  unfold triplets. apply NoDup_bind.
  - intros [src1 trans1] [src2 trans2] [[src sym] dst] H1 H2 Hin1 Hin2.
    apply list_elem_of_fmap in Hin1 as ([? ?] & [= -> -> ->] & _).
    apply list_elem_of_fmap in Hin2 as ([? ?] & [= -> -> ->] & _).
    apply elem_of_map_to_list in H1, H2. congruence.
  - intros [src trans] _. apply NoDup_fmap_2; [|apply NoDup_map_to_list].
    by intros [? ?] [? ?] [= -> ->].
  - apply NoDup_map_to_list.
Qed.

Lemma grouper_conforme t : conforme (Visualizer.grouper t) (triplets t).
Proof.
  rewrite grouper_triplets.
  apply (conforme_foldl [] [] (triplets t)); [apply NoDup_triplets|].
  apply conforme_nil.
Qed.

Lemma sorted_elem_of l e : e ∈ Visualizer.sorted l ↔ e ∈ l.
Proof. unfold Visualizer.sorted. by rewrite merge_sort_Permutation. Qed.

Lemma sorted_NoDup l : NoDup l → NoDup (Visualizer.sorted l).
Proof. unfold Visualizer.sorted. by rewrite merge_sort_Permutation. Qed.

Lemma sorted_Sorted l :
  Sorted (λ a b, String.leb a b) (Visualizer.sorted l).
Proof.
  apply Sorted_merge_sort. intros a b.
  destruct (String.leb_total a b) as [H|H]; rewrite H; [by left|by right].
Qed.

Lemma aretes_elem_of edges src dst label arrowhead :
  Visualizer.Edge src dst label arrowhead ∈ Visualizer.aretes edges ↔
  arrowhead = None ∧
  ∃ syms, (src, dst, syms) ∈ edges ∧
          label = Some (String.concat "," (Visualizer.sorted syms)).
Proof.
  unfold Visualizer.aretes. rewrite list_elem_of_fmap. split.
  - intros ([[src' dst'] syms] & [= -> -> -> ->] & Hin). eauto.
  - intros (-> & syms & Hin & ->). by exists (src, dst, syms).
Qed.

(** The labelled edges of the graph are the transitions, grouped.  Every
    edge with a label joins two states between which the table has a
    transition, and its label is the sorted, comma-separated list of the
    symbols of all those transitions, each once; every transition of the
    table is on such an edge; and no two edge instructions join the same
    source to the same destination. *)
Theorem aretes_du_graphe (afd : AFD) (highlight_path : option (list string)) :
  (∀ src dst label,
     Visualizer.Edge src dst (Some label) None
       ∈ Visualizer.afd_to_graphviz afd highlight_path →
     ∃ syms, label = String.concat "," (Visualizer.sorted syms) ∧
             syms ≠ [] ∧ NoDup syms ∧
             ∀ sym, sym ∈ syms ↔ entree (transitions afd) src sym = Some dst) ∧
  (∀ src sym dst,
     entree (transitions afd) src sym = Some dst →
     ∃ label, Visualizer.Edge src dst (Some label) None
                ∈ Visualizer.afd_to_graphviz afd highlight_path) ∧
  (∀ i j src dst label1 label2,
     Visualizer.afd_to_graphviz afd highlight_path !! i
       = Some (Visualizer.Edge src dst (Some label1) None) →
     Visualizer.afd_to_graphviz afd highlight_path !! j
       = Some (Visualizer.Edge src dst (Some label2) None) →
     i = j).
Proof.
  destruct (grouper_conforme (transitions afd)) as [Hnd Hinv].
  set (edges := Visualizer.grouper (transitions afd)) in *.
  assert (∀ src dst label arrowhead,
            Visualizer.Edge src dst (Some label) arrowhead
              ∈ Visualizer.afd_to_graphviz afd highlight_path ↔
            Visualizer.Edge src dst (Some label) arrowhead
              ∈ Visualizer.aretes edges) as Hseulement.
  { intros src dst label arrowhead. unfold Visualizer.afd_to_graphviz.
    fold edges. rewrite !elem_of_app, !elem_of_cons.
    unfold Visualizer.noeuds. rewrite list_elem_of_fmap. split; [|by auto].
    intros [[?|[?|[?|?%elem_of_nil]]]|[(e & He & _)|?]]; try done.
    by destruct (bool_decide _). }
  split; [|split].
  - intros src dst label Hin.
    apply Hseulement, aretes_elem_of in Hin as (_ & syms & Hin & [= ->]).
    apply (elem_of_list_to_map_1 (M:=gmap (string * string))) in Hin; [|done].
    specialize (Hinv src dst). rewrite Hin in Hinv.
    destruct Hinv as (Hne & Hnds & Hsyms).
    exists syms. split; [done|]. split; [done|]. split; [done|].
    intros sym. by rewrite Hsyms, elem_of_triplets.
  - intros src sym dst Hentree. apply elem_of_triplets in Hentree.
    specialize (Hinv src dst).
    destruct (list_to_map edges !! (src, dst)) as [syms|] eqn:Hl;
      [|by apply Hinv in Hentree].
    apply elem_of_list_to_map_2 in Hl.
    exists (String.concat "," (Visualizer.sorted syms)).
    apply Hseulement, aretes_elem_of. eauto.
  - intros i j src dst label1 label2.
    unfold Visualizer.afd_to_graphviz. fold edges.
    set (n := Visualizer.noeuds afd highlight_path).
    assert (∀ k label,
              ([Visualizer.Attr "LR" "8,5";
                Visualizer.Node "__start__" (Some "") "none" None;
                Visualizer.Edge "__start__" (etat_initial afd) None (Some "normal")]
               ++ n ++ Visualizer.aretes edges) !! k
                = Some (Visualizer.Edge src dst (Some label) None) →
              ∃ k', k = 3 + length n + k' ∧
                    edges.*1 !! k' = Some (src, dst)) as Hpos.
    { intros k label Hk.
      destruct k as [|[|[|k]]]; [done..|]. simpl in Hk.
      apply lookup_app_Some in Hk as [Hk|[Hlen Hk]].
      - unfold n, Visualizer.noeuds in Hk. rewrite list_lookup_fmap in Hk.
        destruct (_ !! k) as [e|]; [|done]. simpl in Hk.
        by destruct (bool_decide _).
      - exists (k - length n). split; [lia|].
        unfold Visualizer.aretes in Hk. rewrite list_lookup_fmap in Hk.
        rewrite list_lookup_fmap.
        destruct (edges !! (k - length n)) as [[[src' dst'] syms]|]; [|done].
        simpl in *. by injection Hk as -> -> _. }
    intros (i' & -> & Hi)%Hpos (j' & -> & Hj)%Hpos.
    f_equal. by eapply NoDup_lookup.
Qed.

Lemma noeud_elem_of afd highlight_path e lbl shape style :
  Visualizer.Node e lbl shape style
    ∈ Visualizer.afd_to_graphviz afd highlight_path ↔
  (e = "__start__" ∧ lbl = Some "" ∧ shape = "none" ∧ style = None) ∨
  (e ∈ etats afd ∧ lbl = None ∧
   shape = (if bool_decide (e ∈ etats_finaux afd)
            then "doublecircle" else "circle") ∧
   style = Some (Visualizer.style_de highlight_path e)).
Proof.
  unfold Visualizer.afd_to_graphviz, Visualizer.noeuds, Visualizer.aretes.
  rewrite !elem_of_app, !elem_of_cons, !list_elem_of_fmap. split.
  - intros [[?|[[= -> -> -> ->]|[?|?%elem_of_nil]]]|[(e' & He & Hin)|Har]];
      try done.
    + by left.
    + right. apply sorted_elem_of, elem_of_elements in Hin.
      destruct (bool_decide (e' ∈ etats_finaux afd)) eqn:Hf;
        injection He as -> -> -> ->; by rewrite Hf.
    + by destruct Har as ([[? ?] ?] & ? & _).
  - intros [(-> & -> & -> & ->)|(He & -> & -> & ->)].
    + left. right. by left.
    + right. left. exists e.
      split; [by destruct (bool_decide _)|].
      by apply sorted_elem_of, elem_of_elements.
Qed.

Lemma style_de_filled highlight_path e :
  Visualizer.style_de highlight_path e = "filled" ↔
  ∃ chemin, highlight_path = Some chemin ∧ e ∈ chemin.
Proof.
  unfold Visualizer.style_de. destruct highlight_path as [[|e0 chemin]|].
  - split; [done|]. by intros (? & [= <-] & ?%elem_of_nil).
  - destruct (bool_decide (e ∈ e0 :: chemin)) eqn:He.
    + apply bool_decide_eq_true in He. split; [eauto|done].
    + apply bool_decide_eq_false in He. split; [done|].
      by intros (? & [= <-] & ?).
  - split; [done|]. by intros (? & ? & _).
Qed.

Lemma Sorted_consecutifs {A} (R : relation A) l i a b :
  Sorted R l → l !! i = Some a → l !! S i = Some b → R a b.
Proof.
  intros Hs. revert i. induction Hs as [|x l Hs IH Hhd]; intros i Ha Hb; [done|].
  destruct i as [|i]; simpl in *.
  - injection Ha as ->. destruct Hhd as [|y l Hxy]; [done|].
    simpl in Hb. by injection Hb as ->.
  - by eapply IH.
Qed.

(** The nodes of the graph.  Besides the invisible start node, the graph
    declares one node per declared state and no other: a double circle
    for an accepting state and a circle otherwise, filled exactly when
    the state is on the highlighted path.  The state nodes come in
    ascending order of their names, each state once. *)
Theorem noeuds_du_graphe (afd : AFD) (highlight_path : option (list string)) :
  (∀ e lbl shape style,
     Visualizer.Node e lbl shape style
       ∈ Visualizer.afd_to_graphviz afd highlight_path ↔
     (e = "__start__" ∧ lbl = Some "" ∧ shape = "none" ∧ style = None) ∨
     (e ∈ etats afd ∧ lbl = None ∧
      shape = (if bool_decide (e ∈ etats_finaux afd)
               then "doublecircle" else "circle") ∧
      style = Some (if bool_decide (e ∈ default [] highlight_path)
                    then "filled" else ""))) ∧
  (∀ i j e shape1 shape2 style1 style2,
     Visualizer.afd_to_graphviz afd highlight_path !! i
       = Some (Visualizer.Node e None shape1 style1) →
     Visualizer.afd_to_graphviz afd highlight_path !! j
       = Some (Visualizer.Node e None shape2 style2) →
     i = j) ∧
  (∀ i e1 e2 shape1 shape2 style1 style2,
     Visualizer.afd_to_graphviz afd highlight_path !! i
       = Some (Visualizer.Node e1 None shape1 style1) →
     Visualizer.afd_to_graphviz afd highlight_path !! S i
       = Some (Visualizer.Node e2 None shape2 style2) →
     String.leb e1 e2 = true).
Proof.
  assert (∀ e, Visualizer.style_de highlight_path e =
               if bool_decide (e ∈ default [] highlight_path)
               then "filled" else "") as Hstyle.
  { intros e. unfold Visualizer.style_de.
    assert (bool_decide (e ∈ @nil string) = false) as Hnil
      by (apply bool_decide_eq_false_2, not_elem_of_nil).
    destruct highlight_path as [[|e0 chemin]|]; [|done|];
      change (bool_decide (e ∈ default [] _))
        with (bool_decide (e ∈ @nil string)); by rewrite Hnil. }
  split; [|split].
  - intros e lbl shape style. by rewrite noeud_elem_of, Hstyle.
  - set (noms := Visualizer.sorted (elements (etats afd))).
    assert (∀ k e shape style,
              Visualizer.afd_to_graphviz afd highlight_path !! k
                = Some (Visualizer.Node e None shape style) →
              ∃ k', k = 3 + k' ∧ noms !! k' = Some e) as Hpos.
    { intros k e shape style Hk. unfold Visualizer.afd_to_graphviz in Hk.
      destruct k as [|[|[|k]]]; [done..|]. simpl in Hk.
      exists k. split; [done|].
      apply lookup_app_Some in Hk as [Hk|[_ Hk]].
      - unfold Visualizer.noeuds in Hk. rewrite list_lookup_fmap in Hk.
        fold noms in Hk. destruct (noms !! k) as [e'|]; [|done]. simpl in Hk.
        destruct (bool_decide _); by injection Hk as ->.
      - unfold Visualizer.aretes in Hk. rewrite list_lookup_fmap in Hk.
        by destruct (_ !! _) as [[[? ?] ?]|]. }
    intros i j e shape1 shape2 style1 style2
      (i' & -> & Hi)%Hpos (j' & -> & Hj)%Hpos.
    f_equal. eapply NoDup_lookup; [|done..].
    apply sorted_NoDup, NoDup_elements.
  - set (noms := Visualizer.sorted (elements (etats afd))).
    assert (∀ k e shape style,
              Visualizer.afd_to_graphviz afd highlight_path !! k
                = Some (Visualizer.Node e None shape style) →
              ∃ k', k = 3 + k' ∧ noms !! k' = Some e) as Hpos.
    { intros k e shape style Hk. unfold Visualizer.afd_to_graphviz in Hk.
      destruct k as [|[|[|k]]]; [done..|]. simpl in Hk.
      exists k. split; [done|].
      apply lookup_app_Some in Hk as [Hk|[_ Hk]].
      - unfold Visualizer.noeuds in Hk. rewrite list_lookup_fmap in Hk.
        fold noms in Hk. destruct (noms !! k) as [e'|]; [|done]. simpl in Hk.
        destruct (bool_decide _); by injection Hk as ->.
      - unfold Visualizer.aretes in Hk. rewrite list_lookup_fmap in Hk.
        by destruct (_ !! _) as [[[? ?] ?]|]. }
    intros i e1 e2 shape1 shape2 style1 style2
      (i' & -> & Hi)%Hpos (j' & Hij & Hj)%Hpos.
    assert (j' = S i') as -> by lia.
    apply Is_true_eq_true.
    exact (Sorted_consecutifs _ _ _ _ _ (sorted_Sorted _) Hi Hj).
Qed.

(** After a simulation [afd_visualizer_enhanced.py] highlights the path
    that [obtenir_chemin] returned.  On an automaton whose initial state
    and transition destinations are declared, whatever the sources and
    symbols of its table, the filled nodes of the graph are then exactly
    the states of that path. *)
Theorem chemin_mis_en_evidence (afd : AFD) (chaine : list string) (e : string) :
  initial_valide (definition_de afd) →
  destinations_declarees (definition_de afd) →
  (∃ shape, Visualizer.Node e None shape (Some "filled")
              ∈ Visualizer.afd_to_graphviz afd
                  (Some (fst (Enhanced.obtenir_chemin afd chaine))))
  ↔ e ∈ fst (Enhanced.obtenir_chemin afd chaine).
Proof.
  intros Hi Hv.
  assert (Enhanced.obtenir_chemin afd chaine = Core.obtenir_chemin afd chaine)
    as -> by (unfold Enhanced.obtenir_chemin, Core.obtenir_chemin;
              by rewrite enhanced_boucle_chemin_core).
  split.
  - intros (shape & [(_ & ? & _)|(_ & _ & _ & Hstyle)]%noeud_elem_of);
      [done|].
    assert (Visualizer.style_de (Some (fst (Core.obtenir_chemin afd chaine))) e
            = "filled") as Hf by congruence.
    apply style_de_filled in Hf as (? & [= <-] & ?). done.
  - intros He. eexists. apply noeud_elem_of. right.
    split; [|split; [done|split; [done|]]].
    + rewrite core_obtenir_chemin_suite in He. simpl in He.
      apply elem_of_cons in He as [->|He]; [exact Hi|].
      pose proof (suite_destinations afd (etat_initial afd) chaine Hv) as Hl.
      rewrite Forall_forall in Hl. by apply Hl.
    + f_equal. symmetry. apply style_de_filled. eauto.
Qed.

Lemma chemin_mis_en_evidence_witness :
  (∃ shape, Visualizer.Node "q0" None shape (Some "filled")
              ∈ Visualizer.afd_to_graphviz
                  (Core.init definition_symbole_non_declare)
                  (Some (fst (Enhanced.obtenir_chemin
                                (Core.init definition_symbole_non_declare)
                                ["a"; "z"]))))
  ↔ "q0" ∈ fst (Enhanced.obtenir_chemin
                  (Core.init definition_symbole_non_declare) ["a"; "z"]).
Proof.
  apply (chemin_mis_en_evidence (Core.init definition_symbole_non_declare)
           ["a"; "z"] "q0").
  - apply (bool_decide_eq_true_1 _). vm_compute. reflexivity.
  - apply (bool_decide_eq_true_1 _). vm_compute. reflexivity.
Defined.

(** When every transition of the table has a declared source and a
    declared destination, whatever its symbol, the graph is closed: every
    labelled edge joins two states that the graph declares as nodes. *)
Theorem graphe_clos (afd : AFD) (highlight_path : option (list string))
    (src dst label : string) :
  extremites_declarees (definition_de afd) →
  Visualizer.Edge src dst (Some label) None
    ∈ Visualizer.afd_to_graphviz afd highlight_path →
  (∃ shape style, Visualizer.Node src None shape style
                    ∈ Visualizer.afd_to_graphviz afd highlight_path) ∧
  (∃ shape style, Visualizer.Node dst None shape style
                    ∈ Visualizer.afd_to_graphviz afd highlight_path).
Proof.
  intros Hv Hin.
  assert (∃ sym, entree (transitions afd) src sym = Some dst) as [sym Hentree].
  { destruct (grouper_conforme (transitions afd)) as [Hnd Hinv].
    unfold Visualizer.afd_to_graphviz in Hin.
    rewrite !elem_of_app, !elem_of_cons in Hin.
    destruct Hin as [[?|[?|[?|?%elem_of_nil]]]|[Hin|Hin]]; try done.
    - unfold Visualizer.noeuds in Hin.
      apply list_elem_of_fmap in Hin as (e & He & _).
      by destruct (bool_decide _).
    - apply aretes_elem_of in Hin as (_ & syms & Hin & _).
      apply (elem_of_list_to_map_1 (M:=gmap (string * string))) in Hin; [|done].
      specialize (Hinv src dst). rewrite Hin in Hinv.
      destruct Hinv as (Hne & _ & Hsyms).
      destruct syms as [|sym syms]; [done|].
      exists sym. apply elem_of_triplets, Hsyms. by left. }
  rewrite extremites_declarees_entree in Hv.
  destruct (Hv src sym dst Hentree) as (Hsrc & Hdst).
  split; do 2 eexists; apply noeud_elem_of; right; eauto.
Qed.

Lemma graphe_clos_witness :
  (∃ shape style,
     Visualizer.Node "q0" None shape style
       ∈ Visualizer.afd_to_graphviz (Core.init definition_symbole_non_declare)
                                    None) ∧
  (∃ shape style,
     Visualizer.Node "q0" None shape style
       ∈ Visualizer.afd_to_graphviz (Core.init definition_symbole_non_declare)
                                    None).
Proof.
  apply (graphe_clos (Core.init definition_symbole_non_declare) None
           "q0" "q0" "a,z").
  - apply (bool_decide_eq_true_1 _). vm_compute. reflexivity.
  - apply (list_elem_of_lookup_2 _ 4). vm_compute. reflexivity.
Defined.

(** The automaton with an entry on an undeclared symbol has all the ends of
    its transitions declared, though its table is not valid. *)
Lemma definition_symbole_non_declare_extremites :
  ¬ transitions_valides definition_symbole_non_declare ∧
  initial_valide definition_symbole_non_declare ∧
  destinations_declarees definition_symbole_non_declare ∧
  extremites_declarees definition_symbole_non_declare.
Proof.
  split; [apply (bool_decide_eq_false_1 _); vm_compute; reflexivity|].
  split; [|split]; apply (bool_decide_eq_true_1 _); vm_compute; reflexivity.
Qed.
